(** * Click-flow generator: a shallow embedding of
    [generate_click_flow_with_screens.py] and the properties of its core.

    The program reads a design document (a tree of JSON objects), indexes it,
    extracts the clickable nodes, orders them, fetches one screenshot per
    navigation target and writes two artifacts.

    Modelling conventions.
    - A JSON object is a record of the keys the program reads; an optional key
      is an [option] field ([None]: the key is absent).  Keys the program never
      reads are left out: they cannot change any result, because a node that
      carries none of the modelled keys has neither an id nor a type.
    - Python dicts used as maps ([name_map], [parent_map], [node_lookup],
      [downloaded]) are [gmap]s with string keys.
    - JSON numbers are exact rationals [Q].  Python computes the midpoint in
      binary64; on integer (more generally dyadic) coordinates of ordinary
      magnitude every operation of the program is exact there, so both agree.
    - Python [str] is [string]; [strip] removes the ASCII white space.
    - The network and the file system are oracles that may answer differently
      at every call: they receive the trace of the calls made so far.
    - The [while] loop of [find_frame_ancestor] carries no bound in the source;
      it is run with fuel, and running out of fuel stands for a loop that is
      still turning. *)

From Stdlib Require Import ZArith QArith Qround String Ascii List Bool.
From Stdlib Require Import DecimalString Permutation Sorted Lia Lqa.
From stdpp Require Import gmap strings list.

Local Open Scope string_scope.
Local Open Scope list_scope.

(** ** Data model *)

(** [absoluteBoundingBox]: [{x, y, width, height}]. *)
Record Box := mkBox { box_x : Q; box_y : Q; box_width : Q; box_height : Q }.

(** One entry of [prototypeInteractions]: [{type, target}]. *)
Record Interaction := mkInteraction {
  i_type : option string;
  i_target : option string }.

(** A node of the document.  [children] is [node.get("children", [])]. *)
#[local] Set Warnings "-register-all".
Inductive Node := mkNode {
  n_id : option string;
  n_name : option string;
  n_type : option string;
  absoluteBoundingBox : option Box;
  children : list Node;
  prototypeInteractions : option (list Interaction);
  transitionNodeID : option string }.

(** The value stored under the key ["screenshot"] of a record.  [Missing] is a
    dict without the key, [Null] is Python's [None], [Path p] a string. *)
Inductive Slot := Missing | Null | Path (p : string).

Record TapPosition := mkTap { tap_x : Z; tap_y : Z }.

Record Clickable := mkClickable {
  name : string;
  from_screen : string;
  tap_position : TapPosition;
  navigates_to : string;
  interaction_type : string;
  node_id : option string;
  element_y : Q;
  screenshot : Slot }.

(** ** Python truthiness and key presence *)

(** [key in d] for an optional key. *)
Definition present {A : Type} (o : option A) : bool :=
  match o with Some _ => true | None => false end.

(** [if s:] on a string-or-None value. *)
Definition truthy_str (s : option string) : bool :=
  match s with
  | Some "" => false
  | Some _ => true
  | None => false
  end.

(** [if d:] on a dict: it holds at least one key. *)
Definition dict_truthy (n : Node) : bool :=
  present (n_id n) || present (n_name n)
  || present (n_type n) || present (absoluteBoundingBox n)
  || negb (match children n with [] => true | _ => false end)
  || present (prototypeInteractions n)
  || present (transitionNodeID n).

(** ** Tree Indexer *)

(** The three dicts that [build_node_maps] fills in place. *)
Record Maps := mkMaps {
  name_map : gmap string string;
  parent_map : gmap string (option string);
  node_lookup : gmap string Node }.

Definition empty_maps : Maps := mkMaps ∅ ∅ ∅.

(** [d.get(k, default)] on an optional string key. *)
Definition get_default (o : option string) (default : string) : string :=
  match o with Some s => s | None => default end.

(** [parent.get("id") if parent else None]. *)
Definition parent_id_of (parent : option Node) : option string :=
  match parent with
  | Some p => if dict_truthy p then n_id p else None
  | None => None
  end.

(** The body of [build_node_maps] for one node, before the recursion:
    [if node_id: ...]. *)
Definition index_node (node : Node) (parent : option Node) (m : Maps) : Maps :=
  match n_id node with
  | Some node_id =>
      if truthy_str (Some node_id) then
        let parent_id := parent_id_of parent in
        mkMaps (<[node_id := get_default (n_name node) "Unnamed"]> (name_map m))
               (<[node_id := parent_id]> (parent_map m))
               (<[node_id := node]> (node_lookup m))
      else m
  | None => m
  end.

Fixpoint build_node_maps (node : Node) (m : Maps) (parent : option Node) : Maps :=
  fold_left (fun acc child => build_node_maps child acc (Some node))
            (children node) (index_node node parent m).

(** ** Ancestor Resolver *)

(** [current.get("type") == "FRAME" and 'absoluteBoundingBox' in current]. *)
Definition is_frame (n : Node) : bool :=
  match n_type n with
  | Some t => String.eqb t "FRAME" && present (absoluteBoundingBox n)
  | None => false
  end.

(** One turn of the loop body after the frame test:
    [parent_id = parent_map.get(current.get("id"))] and then
    [node_lookup.get(parent_id) if parent_id else None]. *)
Definition parent_step (parent_map : gmap string (option string))
    (node_lookup : gmap string Node) (current : Node) : option Node :=
  let current_id := n_id current in
  let parent_id :=
    match current_id with
    | Some k => match parent_map !! k with Some v => v | None => None end
    | None => None
    end in
  if truthy_str parent_id then
    match parent_id with Some p => node_lookup !! p | None => None end
  else None.

(** [find_frame_ancestor].  The result is [None] when [fuel] turns of the
    loop were not enough to leave it, [Some r] when the function returned
    [r] ([r = None] is Python's [return None]). *)
Fixpoint find_frame_ancestor (fuel : nat)
    (parent_map : gmap string (option string))
    (node_lookup : gmap string Node) (current : option Node)
    : option (option Node) :=
  match current with
  | None => Some None
  | Some c =>
      if negb (dict_truthy c) then Some None
      else if is_frame c then Some (Some c)
      else match fuel with
           | O => None
           | S fuel' =>
               find_frame_ancestor fuel' parent_map node_lookup
                 (parent_step parent_map node_lookup c)
           end
  end.

(** ** Clickable Extractor *)

(** Python's [round] on a float: nearest integer, ties to the even one. *)
Definition py_round (q : Q) : Z :=
  let f := Qfloor q in
  match Qcompare (q - inject_Z f) (1 # 2) with
  | Lt => f
  | Gt => (f + 1)%Z
  | Eq => if Z.even f then f else (f + 1)%Z
  end.

Definition mid_x (box : Box) : Q := box_x box + box_width box / 2.
Definition mid_y (box : Box) : Q := box_y box + box_height box / 2.

(** [frame.get("name", "Unknown") if frame else "Unknown"]. *)
Definition from_screen_of (frame : option Node) : string :=
  match frame with
  | Some f => if dict_truthy f then get_default (n_name f) "Unknown" else "Unknown"
  | None => "Unknown"
  end.

(** The tap coordinates before rounding:
    [if frame and 'absoluteBoundingBox' in frame: ... else: ...]. *)
Definition tap_of (box : Box) (frame : option Node) : Q * Q :=
  match frame with
  | Some f =>
      if dict_truthy f then
        match absoluteBoundingBox f with
        | Some frame_box =>
            ((mid_x box - box_x frame_box)%Q, (mid_y box - box_y frame_box)%Q)
        | None => (mid_x box, mid_y box)
        end
      else (mid_x box, mid_y box)
  | None => (mid_x box, mid_y box)
  end.

(** The dict literal appended to [clickables]. *)
Definition make_clickable (node : Node) (box : Box) (frame : option Node)
    (target_id : string) (itype : string) : Clickable :=
  let tap := tap_of box frame in
  {| name := get_default (n_name node) "Unnamed";
     from_screen := from_screen_of frame;
     tap_position := mkTap (py_round (fst tap)) (py_round (snd tap));
     navigates_to := target_id;
     interaction_type := itype;
     node_id := n_id node;
     element_y := box_y box;
     screenshot := Null |}.

(** The loop over [node['prototypeInteractions']]: one record per
    interaction whose target is truthy. *)
Fixpoint append_interactions (node : Node) (box : Box) (frame : option Node)
    (interactions : list Interaction) (clickables : list Clickable)
    : list Clickable :=
  match interactions with
  | [] => clickables
  | interaction :: rest =>
      let clickables' :=
        match i_target interaction with
        | Some target_id =>
            if truthy_str (Some target_id) then
              clickables ++
                [make_clickable node box frame target_id
                   (get_default (i_type interaction) "ON_CLICK")]
            else clickables
        | None => clickables
        end in
      append_interactions node box frame rest clickables'
  end.

(** [if 'prototypeInteractions' in node: ... elif 'transitionNodeID' in node:]. *)
Definition emit (node : Node) (box : Box) (frame : option Node)
    (clickables : list Clickable) : list Clickable :=
  match prototypeInteractions node with
  | Some interactions => append_interactions node box frame interactions clickables
  | None =>
      match transitionNodeID node with
      | Some target =>
          clickables ++ [make_clickable node box frame target "ON_CLICK"]
      | None => clickables
      end
  end.

(** [has_link and 'absoluteBoundingBox' in node]. *)
Definition qualifies (node : Node) : bool :=
  (present (prototypeInteractions node) || present (transitionNodeID node))
  && present (absoluteBoundingBox node).

(** The part of [extract_clickables] after the recursion into the children. *)
Definition visit (fuel : nat) (node : Node)
    (parent_map : gmap string (option string)) (node_lookup : gmap string Node)
    (clickables : list Clickable) : option (list Clickable) :=
  let has_link :=
    present (prototypeInteractions node) || present (transitionNodeID node) in
  if negb has_link || negb (present (absoluteBoundingBox node)) then Some clickables
  else
    match absoluteBoundingBox node with
    | None => Some clickables
    | Some box =>
        match find_frame_ancestor fuel parent_map node_lookup (Some node) with
        | None => None
        | Some frame => Some (emit node box frame clickables)
        end
    end.

(** [extract_clickables]: [clickables] is the list that the source appends
    to in place; [None] when an ancestor walk did not return within [fuel]. *)
Fixpoint extract_clickables (fuel : nat) (node : Node)
    (parent_map : gmap string (option string)) (node_lookup : gmap string Node)
    (clickables : list Clickable) : option (list Clickable) :=
  match
    fold_left
      (fun acc child =>
         match acc with
         | Some c => extract_clickables fuel child parent_map node_lookup c
         | None => None
         end)
      (children node) (Some clickables)
  with
  | Some c => visit fuel node parent_map node_lookup c
  | None => None
  end.

(** ** Strings *)

(** The ASCII characters that [str.strip()] removes: tab to carriage return,
    the four separators [0x1c]-[0x1f] and the space. *)
Definition is_space (c : ascii) : bool :=
  let n := nat_of_ascii c in
  ((9 <=? n)%nat && (n <=? 13)%nat) || ((28 <=? n)%nat && (n <=? 32)%nat).

Fixpoint lstrip (s : string) : string :=
  match s with
  | EmptyString => EmptyString
  | String c rest => if is_space c then lstrip rest else s
  end.

Fixpoint rstrip (s : string) : string :=
  match s with
  | EmptyString => EmptyString
  | String c rest =>
      match rstrip rest with
      | EmptyString => if is_space c then EmptyString else String c EmptyString
      | rest' => String c rest'
      end
  end.

Definition strip (s : string) : string := lstrip (rstrip s).

(** [s.replace(" ", "_")]. *)
Fixpoint replace_spaces (s : string) : string :=
  match s with
  | EmptyString => EmptyString
  | String c rest =>
      String (if Ascii.eqb c " " then "_"%char else c) (replace_spaces rest)
  end.

(** [os.path.basename]: what follows the last slash. *)
Fixpoint basename_from (acc p : string) : string :=
  match p with
  | EmptyString => acc
  | String c rest =>
      if Ascii.eqb c "/" then basename_from EmptyString rest
      else basename_from (acc ++ String c EmptyString)%string rest
  end.

Definition basename (p : string) : string := basename_from EmptyString p.

(** [str(n)] for an [int]. *)
Definition str_of_int (z : Z) : string := NilZero.string_of_int (Z.to_int z).

(** ** Ordering Engine *)

(** [sorted(l, key=key)]: the stable sort by [<] on the keys.  Python runs
    Timsort; a stable sort has one result whatever the algorithm as long as
    [<] is a strict weak order on the keys, so it is modelled by insertion,
    each element entering before the first one that is not smaller. *)
Section PySorted.
Context {A K : Type} (key : A -> K) (ltb : K -> K -> bool).

Fixpoint insert_by (x : A) (l : list A) : list A :=
  match l with
  | [] => [x]
  | y :: l' =>
      if ltb (key y) (key x) then y :: insert_by x l' else x :: y :: l'
  end.

Definition py_sorted (l : list A) : list A := fold_right insert_by [] l.

(** Two keys compare equal: neither is smaller. *)
Definition key_equiv (a b : K) : bool := negb (ltb a b) && negb (ltb b a).
End PySorted.

(** A sort key is a pair [(tier, value)]. *)
Definition Key : Type := Z * Q.

(** [<] on two such tuples: on the first components when they differ, else
    on the second ones. *)
Definition key_ltb (a b : Key) : bool :=
  match (fst a ?= fst b)%Z with
  | Lt => true
  | Gt => false
  | Eq => match Qcompare (snd a) (snd b) with Lt => true | _ => false end
  end.

(** [target_order_preference = {"3": 1, "2": 2}]. *)
Definition target_order_preference (target_name : string) : option Z :=
  if String.eqb target_name "3" then Some 1%Z
  else if String.eqb target_name "2" then Some 2%Z
  else None.

(** [name_map.get(target_id, "Unknown").strip()]. *)
Definition target_name_of (name_map : gmap string string) (target_id : string)
    : string :=
  strip (match name_map !! target_id with Some n => n | None => "Unknown" end).

Definition sort_key (name_map : gmap string string) (start_screen : string)
    (click : Clickable) : Key :=
  let target_name := target_name_of name_map (navigates_to click) in
  if String.eqb (from_screen click) start_screen then (0%Z, 0%Q)
  else
    match target_order_preference target_name with
    | Some rank => (1%Z, inject_Z rank)
    | None => (2%Z, element_y click)
    end.

Definition sort_clickables (clickables : list Clickable)
    (name_map : gmap string string) (start_screen : string) : list Clickable :=
  py_sorted (sort_key name_map start_screen) key_ltb clickables.

(** ** Screenshot Cache and Fetch Orchestrator *)

(** What [get_screenshot_url] does: it raises, or returns the URL found under
    the id ([None] when there is none). *)
Inductive RenderResult :=
| RenderRaised
| RenderReturned (url : option string).

(** The calls that leave the process. *)
Inductive Event :=
| EvRender (target_id : string)
| EvDownload (target_id url file_path : string).

(** [name_map.get(target_id, "Target").strip().replace(" ", "_")]. *)
Definition screen_name_of (name_map : gmap string string) (target_id : string)
    : string :=
  replace_spaces
    (strip (match name_map !! target_id with Some n => n | None => "Target" end)).

(** [f"screenshots/{screen_name}.png"]. *)
Definition file_path_of (name_map : gmap string string) (target_id : string)
    : string :=
  ("screenshots/" ++ screen_name_of name_map target_id ++ ".png")%string.

Definition with_screenshot (item : Clickable) (s : Slot) : Clickable :=
  {| name := name item;
     from_screen := from_screen item;
     tap_position := tap_position item;
     navigates_to := navigates_to item;
     interaction_type := interaction_type item;
     node_id := node_id item;
     element_y := element_y item;
     screenshot := s |}.

(** The state of the loop of [main]: the dict [downloaded], the calls made so
    far (latest first), the files under [screenshots/] (path to bytes) and
    the records already passed, in order. *)
Record FetchState := mkFetchState {
  downloaded : gmap string string;
  trace : list Event;
  files : gmap string string;
  processed : list Clickable }.

Definition fetch_init : FetchState := mkFetchState ∅ [] ∅ [].

Section Fetch.
(** The render service: its answer to a request, given the calls so far. *)
Variable render : list Event -> string -> RenderResult.
(** [requests.get(url).content] followed by the write to [output_path]:
    the bytes written, or [None] when either step raises (the file store
    is then left as it was). *)
Variable download : list Event -> string -> string -> option string.
Variable name_map : gmap string string.

(** One turn of [for item in ordered]. *)
Definition fetch_item (st : FetchState) (item : Clickable) : FetchState :=
  let target_id := navigates_to item in
  match downloaded st !! target_id with
  | Some p =>
      mkFetchState (downloaded st) (trace st) (files st)
        (processed st ++ [with_screenshot item (Path p)])
  | None =>
      let file_path := file_path_of name_map target_id in
      let tr := EvRender target_id :: trace st in
      match render (trace st) target_id with
      | RenderRaised =>
          mkFetchState (downloaded st) tr (files st) (processed st ++ [item])
      | RenderReturned url =>
          match url with
          | Some u =>
              if truthy_str url then
                let tr' := EvDownload target_id u file_path :: tr in
                match download tr u file_path with
                | Some data =>
                    mkFetchState (<[target_id := file_path]> (downloaded st))
                      tr' (<[file_path := data]> (files st))
                      (processed st ++ [with_screenshot item (Path file_path)])
                | None =>
                    mkFetchState (downloaded st) tr' (files st)
                      (processed st ++ [item])
                end
              else
                mkFetchState (downloaded st) tr (files st) (processed st ++ [item])
          | None =>
              mkFetchState (downloaded st) tr (files st) (processed st ++ [item])
          end
      end
  end.

Definition fetch_from (st : FetchState) (ordered : list Clickable) : FetchState :=
  fold_left fetch_item ordered st.

Definition fetch_phase (ordered : list Clickable) : FetchState :=
  fetch_from fetch_init ordered.
End Fetch.

(** The number of render requests and of byte downloads made for an id. *)
Definition is_render_of (target_id : string) (e : Event) : bool :=
  match e with
  | EvRender t => String.eqb t target_id
  | EvDownload _ _ _ => false
  end.

Definition is_download_of (target_id : string) (e : Event) : bool :=
  match e with
  | EvRender _ => false
  | EvDownload t _ _ => String.eqb t target_id
  end.

Definition render_calls (target_id : string) (tr : list Event) : nat :=
  length (List.filter (is_render_of target_id) tr).

Definition download_calls (target_id : string) (tr : list Event) : nat :=
  length (List.filter (is_download_of target_id) tr).

(** ** Summary *)

Inductive PyError := TypeError.

Inductive Result (A : Type) :=
| Ok (a : A)
| Raised (e : PyError).
Arguments Ok {A} a.
Arguments Raised {A} e.

(** [item.get("screenshot", default)]: the default only when the key is
    missing; a stored [None] is returned as it is. *)
Definition slot_get (s : Slot) (default : string) : option string :=
  match s with
  | Missing => Some default
  | Null => None
  | Path p => Some p
  end.

(** The body of the loop of [generate_summary]; [os.path.basename(None)]
    raises [TypeError]. *)
Definition summary_line (idx : Z) (item : Clickable)
    (name_map : gmap string string) : Result string :=
  let x := tap_x (tap_position item) in
  let y := tap_y (tap_position item) in
  let target_id := navigates_to item in
  let screen := screen_name_of name_map target_id in
  match slot_get (screenshot item) (screen ++ ".png")%string with
  | None => Raised TypeError
  | Some p =>
      let img := basename p in
      Ok (str_of_int idx ++ ". Click_COORD, " ++ str_of_int x ++ ", "
          ++ str_of_int y ++ ", CHECK, " ++ img)%string
  end.

Fixpoint generate_summary_from (idx : Z) (clickables : list Clickable)
    (name_map : gmap string string) (lines : list string)
    : Result (list string) :=
  match clickables with
  | [] => Ok lines
  | item :: rest =>
      match summary_line idx item name_map with
      | Raised e => Raised e
      | Ok line => generate_summary_from (idx + 1) rest name_map (lines ++ [line])
      end
  end.

Definition generate_summary (clickables : list Clickable)
    (name_map : gmap string string) : Result (list string) :=
  generate_summary_from 1 clickables name_map [].

(** ** The run *)

(** What a run leaves behind: the records dumped to [clickable_elements.json]
    (the dump comes first and cannot fail), then either the lines written to
    [click_coord_summary.txt] or the exception that ended the process before
    that file was opened. *)
Record Run := mkRun {
  records_file : list Clickable;
  summary_file : Result (list string);
  run_trace : list Event;
  run_files : gmap string string }.

(** [main] after the document was fetched; [None] when the extraction did
    not come back within [fuel]. *)
Definition main (fuel : nat)
    (render : list Event -> string -> RenderResult)
    (download : list Event -> string -> string -> option string)
    (document : Node) (start : string) : option Run :=
  let maps := build_node_maps document empty_maps None in
  match extract_clickables fuel document (parent_map maps) (node_lookup maps) [] with
  | None => None
  | Some clickables =>
      let ordered := sort_clickables clickables (name_map maps) start in
      let st := fetch_phase render download (name_map maps) ordered in
      Some (mkRun (processed st)
                  (generate_summary (processed st) (name_map maps))
                  (trace st) (files st))
  end.

(** ** Notions used to state the properties *)

(** The nodes of a document, the root first. *)
Fixpoint nodes (n : Node) : list Node :=
  n :: flat_map nodes (children n).

(** The three index maps hold the same ids. *)
Definition aligned (m : Maps) : Prop :=
  dom (name_map m) = dom (parent_map m)
  /\ dom (parent_map m) = dom (node_lookup m).

(** An id is a key of all three maps, or of none. *)
Definition in_all (m : Maps) (k : string) : Prop :=
  k ∈ dom (name_map m) /\ k ∈ dom (parent_map m) /\ k ∈ dom (node_lookup m).

Definition in_none (m : Maps) (k : string) : Prop :=
  (k ∉ dom (name_map m)) /\ (k ∉ dom (parent_map m))
  /\ (k ∉ dom (node_lookup m)).

(** A document in which a node and its child carry the same id: indexing it
    makes that id its own parent. *)
Definition cyc_button : Node :=
  mkNode (Some "1:1") (Some "Button") (Some "RECTANGLE")
    (Some (mkBox 10 10 40 20)) []
    (Some [mkInteraction (Some "ON_CLICK") (Some "2:1")]) None.

Definition cyc_document : Node :=
  mkNode (Some "1:1") (Some "Group") (Some "GROUP") None [cyc_button] None None.

(** A well-formed document: a screen that holds one button. *)
Definition home_button : Node :=
  mkNode (Some "1:2") (Some "Go") (Some "RECTANGLE")
    (Some (mkBox 110 210 20 20)) []
    (Some [mkInteraction (Some "ON_CLICK") (Some "2:1")]) None.

Definition home_screen : Node :=
  mkNode (Some "1:1") (Some "Home") (Some "FRAME")
    (Some (mkBox 100 200 500 800)) [home_button] None None.

Definition home_document : Node :=
  mkNode (Some "0:0") (Some "Document") (Some "DOCUMENT") None
    [home_screen] None None.

(** The depth of the nodes of [home_document], read off their ids. *)
Definition home_rank (n : Node) : nat :=
  match n_id n with
  | Some k => if String.eqb k "1:2" then 2 else if String.eqb k "1:1" then 1 else 0
  | None => 0
  end.

(** The count that the specification gives for one node: nothing when it
    does not qualify; for a node with interaction descriptors, the number of
    descriptors with a target; one for a node with the legacy field only. *)
Definition node_count (n : Node) : nat :=
  if qualifies n then
    match prototypeInteractions n, transitionNodeID n with
    | Some interactions, _ =>
        length (List.filter (fun i => truthy_str (i_target i)) interactions)
    | None, Some _ => 1
    | None, None => 0
    end
  else 0.

(** The sum of these counts over the nodes of a document. *)
Definition expected_count (document : Node) : nat :=
  list_sum (List.map node_count (nodes document)).

(** The records that come from the interaction descriptors of a node. *)
Definition descriptor_records (node : Node) (box : Box) (frame : option Node)
    (interactions : list Interaction) : list Clickable :=
  flat_map
    (fun i =>
       match i_target i with
       | Some target_id =>
           if truthy_str (Some target_id) then
             [make_clickable node box frame target_id
                (get_default (i_type i) "ON_CLICK")]
           else []
       | None => []
       end)
    interactions.



(** A node with both forms: two descriptors, one without target, and the
    legacy field. *)
Definition both_forms_node : Node :=
  mkNode (Some "8:1") (Some "Both") (Some "RECTANGLE")
    (Some (mkBox 0 0 10 10)) []
    (Some [mkInteraction None (Some "8:2"); mkInteraction (Some "ON_HOVER") None])
    (Some "8:3").

(** Five records for the tiers of the ordering: [tier_A] leaves the start
    screen, [tier_B] and [tier_C] lead to the targets named "3" and "2",
    [tier_D] and [tier_E] are ordinary, at heights 50 and 10. *)
Definition tier_names : gmap string string :=
  <["t3" := " 3 "]> (<["t2" := "2"]> (<["tx" := "Settings"]> ∅)).

Definition tier_record (from target : string) (y : Q) : Clickable :=
  {| name := "Button"; from_screen := from;
     tap_position := mkTap 5 5; navigates_to := target;
     interaction_type := "ON_CLICK"; node_id := Some "9:9";
     element_y := y; screenshot := Null |}.

Definition tier_A : Clickable := tier_record "Splash" "tx" 700.
Definition tier_B : Clickable := tier_record "Home" "t3" 900.
Definition tier_C : Clickable := tier_record "Home" "t2" 800.
Definition tier_D : Clickable := tier_record "Home" "tx" 50.
Definition tier_E : Clickable := tier_record "Home" "tx" 10.

(** Two records that lead to the same target, and network services: one
    that never has a URL, one that fails on its first request only, one that
    always answers. *)
Definition dup_first : Clickable := tier_record "Home" "2:1" 10.
Definition dup_second : Clickable := tier_record "Cart" "2:1" 20.

Definition render_no_url (tr : list Event) (target_id : string) : RenderResult :=
  RenderReturned None.

Definition render_flaky (tr : list Event) (target_id : string) : RenderResult :=
  match tr with
  | [] => RenderRaised
  | _ => RenderReturned (Some ("https://img/" ++ target_id)%string)
  end.

Definition render_ok (tr : list Event) (target_id : string) : RenderResult :=
  RenderReturned (Some ("https://img/" ++ target_id)%string).

Definition download_fails (tr : list Event) (url file_path : string)
    : option string := None.

Definition download_ok (tr : list Event) (url file_path : string)
    : option string := Some ("bytes of " ++ url)%string.

(** Every path in the cache is the one computed from the name of its
    target. *)
Definition cache_ok (name_map : gmap string string) (st : FetchState) : Prop :=
  forall t p, downloaded st !! t = Some p -> p = file_path_of name_map t.

(** What the fetch phase may do to a record: nothing, or store the path
    computed from the name of its target. *)
Definition fetched_from (name_map : gmap string string) (x' x : Clickable)
    : Prop :=
  x' = x
  \/ x' = with_screenshot x (Path (file_path_of name_map (navigates_to x))).

(** Two records that lead to distinct targets without a name. *)
Definition anon_first : Clickable := tier_record "Home" "5:1" 10.

(** The insertions that [build_node_maps] makes, in the order in which it
    makes them: the id of a node, the id of its parent and the node. *)
Definition Entry : Type := string * (option string * Node).

Fixpoint entries (node : Node) (parent : option Node) : list Entry :=
  match n_id node with
  | Some k =>
      if truthy_str (Some k) then [(k, (parent_id_of parent, node))] else []
  | None => []
  end
  ++ flat_map (fun child => entries child (Some node)) (children node).

Definition apply_entry (m : Maps) (e : Entry) : Maps :=
  mkMaps (<[fst e := get_default (n_name (snd (snd e))) "Unnamed"]> (name_map m))
         (<[fst e := fst (snd e)]> (parent_map m))
         (<[fst e := snd (snd e)]> (node_lookup m)).

(** The ids under which a document is indexed, in that order. *)
Definition indexed_ids (document : Node) : list string :=
  List.map fst (entries document None).

(** The ids of a document are pairwise distinct. *)
Definition distinct_ids (document : Node) : Prop := NoDup (indexed_ids document).

(** The parent ids that can be followed are ids met before. *)
Fixpoint parents_first (seen : list string) (l : list Entry) : Prop :=
  match l with
  | [] => True
  | e :: l' =>
      (forall pk, fst (snd e) = Some pk -> pk <> "" -> pk ∈ seen)
      /\ parents_first (fst e :: seen) l'
  end.

(** The place of an id in a list, the length of the list when it is not
    there. *)
Fixpoint index_of (k : string) (l : list string) : nat :=
  match l with
  | [] => 0
  | k' :: l' => if String.eqb k' k then 0 else S (index_of k l')
  end.

(** The rank of a node of a document: the place at which its id is indexed. *)
Definition doc_rank (document : Node) (n : Node) : nat :=
  match n_id n with
  | Some k => index_of k (indexed_ids document)
  | None => 0
  end.

(** The node that the ancestor walk looks at after [k] turns, when it gets
    that far. *)
Fixpoint ancestor_at (k : nat) (parent_map : gmap string (option string))
    (node_lookup : gmap string Node) (n : Node) : option Node :=
  match k with
  | O => Some n
  | S k' =>
      match parent_step parent_map node_lookup n with
      | Some p => ancestor_at k' parent_map node_lookup p
      | None => None
      end
  end.

(** A record was made for a node: the node qualifies, the record copies its
    name, id and height, has no screenshot yet, and leads to the target of
    one of its descriptors or, without descriptors, to its legacy target. *)
Definition stems_from (n : Node) (r : Clickable) : Prop :=
  exists box,
    qualifies n = true /\ absoluteBoundingBox n = Some box
    /\ name r = get_default (n_name n) "Unnamed"
    /\ node_id r = n_id n
    /\ element_y r = box_y box
    /\ screenshot r = Null
    /\ match prototypeInteractions n with
       | Some interactions =>
           exists i, In i interactions
             /\ i_target i = Some (navigates_to r)
             /\ navigates_to r <> ""
             /\ interaction_type r = get_default (i_type i) "ON_CLICK"
       | None =>
           transitionNodeID n = Some (navigates_to r)
           /\ interaction_type r = "ON_CLICK"
       end.

(** A document without any link, in which a child repeats the id of its
    parent. *)
Definition plain_document : Node :=
  mkNode (Some "0:1") (Some "Page") (Some "CANVAS") None
    [mkNode (Some "0:1") (Some "Title") (Some "TEXT")
       (Some (mkBox 0 0 100 20)) [] None None]
    None None.

(** Services that always answer: the render service returns a non-empty
    URL and the download completes. *)
Definition reliable (render : list Event -> string -> RenderResult)
    (download : list Event -> string -> string -> option string) : Prop :=
  (forall tr t, exists u, u <> "" /\ render tr t = RenderReturned (Some u))
  /\ (forall tr u p, exists data, download tr u p = Some data).

(** The cache and the records only name files that were written. *)
Definition paths_written (st : FetchState) : Prop :=
  (forall t p, downloaded st !! t = Some p -> is_Some (files st !! p))
  /\ Forall (fun r => forall p, screenshot r = Path p -> is_Some (files st !! p))
       (processed st).

(** [s] holds a slash. *)
Fixpoint has_slash (s : string) : bool :=
  match s with
  | EmptyString => false
  | String c rest => Ascii.eqb c "/" || has_slash rest
  end.

(** * Properties *)

(** ** Induction on documents *)

Lemma Node_forall_ind (P : Node -> Prop) :
  (forall n, Forall P (children n) -> P n) -> forall n, P n.
Proof.
  intros step. fix IH 1. intros [i nm t b cs ints tr].
  apply step. simpl.
  induction cs as [|c cs IHcs]; constructor; [apply IH | exact IHcs].
Qed.

(** ** Tree Indexer *)

Lemma index_node_aligned node parent m :
  aligned m -> aligned (index_node node parent m).
Proof.
  intros [H1 H2]. unfold index_node.
  destruct (n_id node) as [k|]; [|by split].
  destruct (truthy_str (Some k)); [|by split].
  split; simpl; rewrite !dom_insert_L; congruence.
Qed.

Lemma index_node_dom_mono node parent m :
  dom (name_map m) ⊆ dom (name_map (index_node node parent m)).
Proof.
  unfold index_node. destruct (n_id node) as [k|]; [|done].
  destruct (truthy_str (Some k)); [|done].
  simpl. rewrite dom_insert_L. set_solver.
Qed.

Lemma index_node_adds node parent m k :
  n_id node = Some k -> k <> "" ->
  k ∈ dom (name_map (index_node node parent m)).
Proof.
  intros Hid Hk. unfold index_node. rewrite Hid.
  destruct k as [|c k]; [done|]. simpl. rewrite dom_insert_L. set_solver.
Qed.

Lemma index_node_no_empty node parent m :
  "" ∉ dom (name_map m) -> "" ∉ dom (name_map (index_node node parent m)).
Proof.
  intros Hm. unfold index_node. destruct (n_id node) as [k|]; [|done].
  destruct k as [|c k]; [done|]. simpl.
  rewrite dom_insert_L, elem_of_union, elem_of_singleton. by intros [?|?].
Qed.

Lemma build_node_maps_unfold node m parent :
  build_node_maps node m parent =
  fold_left (fun acc child => build_node_maps child acc (Some node))
    (children node) (index_node node parent m).
Proof. by destruct node. Qed.

(** A property of the maps kept by every call is kept by the loop over the
    children. *)
Lemma fold_children_preserves (I : Maps -> Prop) (node : Node) cs :
  Forall (fun c => forall m p, I m -> I (build_node_maps c m p)) cs ->
  forall m, I m ->
    I (fold_left (fun acc child => build_node_maps child acc (Some node)) cs m).
Proof.
  induction 1 as [|c cs Hc ? IH]; intros m Hm; simpl; [done|].
  apply IH, Hc, Hm.
Qed.

Lemma build_node_maps_aligned node :
  forall m parent, aligned m -> aligned (build_node_maps node m parent).
Proof.
  induction node as [node IH] using Node_forall_ind. intros m parent Hm.
  rewrite build_node_maps_unfold.
  apply (fold_children_preserves aligned); [exact IH|].
  by apply index_node_aligned.
Qed.

Lemma build_node_maps_no_empty node :
  forall m parent, "" ∉ dom (name_map m) ->
    "" ∉ dom (name_map (build_node_maps node m parent)).
Proof.
  induction node as [node IH] using Node_forall_ind. intros m parent Hm.
  rewrite build_node_maps_unfold.
  apply (fold_children_preserves (fun m => "" ∉ dom (name_map m))); [exact IH|].
  by apply index_node_no_empty.
Qed.

Lemma build_node_maps_dom_mono node :
  forall m parent k, k ∈ dom (name_map m) ->
    k ∈ dom (name_map (build_node_maps node m parent)).
Proof.
  induction node as [node IH] using Node_forall_ind. intros m parent k Hk.
  rewrite build_node_maps_unfold.
  apply (fold_children_preserves (fun m => k ∈ dom (name_map m))).
  - eapply Forall_impl; [exact IH|]. intros c Hc m' p'. apply Hc.
  - by apply index_node_dom_mono.
Qed.

Lemma fold_children_indexes (node : Node) k cs :
  Forall (fun c => forall m p n, In n (nodes c) -> n_id n = Some k ->
            k ∈ dom (name_map (build_node_maps c m p))) cs ->
  forall m n, In n (flat_map nodes cs) -> n_id n = Some k ->
    k ∈ dom (name_map
      (fold_left (fun acc child => build_node_maps child acc (Some node)) cs m)).
Proof.
  induction 1 as [|c cs Hc ? IH]; intros m n Hin Hid; simpl in *; [done|].
  apply in_app_or in Hin as [Hin|Hin].
  - apply (fold_children_preserves (fun m => k ∈ dom (name_map m))).
    + apply Forall_forall. intros c' _ m' p'. apply build_node_maps_dom_mono.
    + by apply (Hc _ _ n).
  - by apply (IH _ n).
Qed.

Lemma build_node_maps_indexes node :
  forall m parent n k, In n (nodes node) -> n_id n = Some k -> k <> "" ->
    k ∈ dom (name_map (build_node_maps node m parent)).
Proof.
  induction node as [node IH] using Node_forall_ind.
  intros m parent n k Hin Hid Hk.
  rewrite build_node_maps_unfold.
  destruct node as [i nm t b cs ints tr]. simpl in Hin.
  destruct Hin as [<-|Hin].
  - apply (fold_children_preserves (fun m => k ∈ dom (name_map m))).
    + apply Forall_forall. intros c' _ m' p'. apply build_node_maps_dom_mono.
    + by apply index_node_adds.
  - simpl. apply (fold_children_indexes _ k cs) with (n := n); [|done..].
    simpl in IH. eapply Forall_impl; [exact IH|].
    intros c Hc m' p' n' Hin' Hid'. by apply (Hc m' p' n' k).
Qed.

(** C8.  After indexing a document from empty maps, every id that is a key
    of [parent_map] or of [node_lookup] is a key of [name_map], and the id of
    every node of the document is a key of all three maps or of none of them
    (of all three exactly when it is a non-empty string). *)
Theorem index_maps_built_together (document : Node) :
  let m := build_node_maps document empty_maps None in
  (forall k, k ∈ dom (parent_map m) \/ k ∈ dom (node_lookup m) ->
             k ∈ dom (name_map m))
  /\ (forall n k, In n (nodes document) -> n_id n = Some k ->
        in_all m k \/ in_none m k)
  /\ (forall n k, In n (nodes document) -> n_id n = Some k ->
        (in_all m k <-> k <> "")).
Proof.
  intros m.
  assert (Hal : aligned m).
  { apply build_node_maps_aligned. by split. }
  assert (Hne : "" ∉ dom (name_map m)).
  { apply build_node_maps_no_empty. simpl. set_solver. }
  destruct Hal as [H1 H2].
  assert (Hall : forall k, k ∈ dom (name_map m) -> in_all m k).
  { intros k Hk. unfold in_all. rewrite <- H2, <- H1. done. }
  split; [|split].
  - intros k [Hk|Hk]; [by rewrite H1|by rewrite H1, H2].
  - intros n k Hin Hid. destruct (decide (k = "")) as [->|Hk].
    + right. unfold in_none. rewrite <- H2, <- H1. done.
    + left. apply Hall. by apply (build_node_maps_indexes _ _ _ n).
  - intros n k Hin Hid. split.
    + intros [Hk _] ->. done.
    + intros Hk. apply Hall. by apply (build_node_maps_indexes _ _ _ n).
Qed.

Lemma index_maps_built_together_witness :
  let m := build_node_maps home_document empty_maps None in
  "1:2" ∈ dom (name_map m)
  /\ (in_all m "1:2" \/ in_none m "1:2")
  /\ (in_all m "1:2" <-> "1:2" <> "").
Proof.
  intros m.
  destruct (index_maps_built_together home_document) as (Hdom & Hnode & Hiff).
  fold m in Hdom, Hnode, Hiff.
  assert (Hin : In home_button (nodes home_document))
    by (simpl; right; right; by left).
  split; [|split].
  - apply Hdom. left. apply elem_of_dom. exists (Some "1:1"). reflexivity.
  - by apply (Hnode home_button).
  - by apply (Hiff home_button).
Defined.

(** ** Ancestor Resolver *)

Lemma find_frame_ancestor_fuel_mono pm nl :
  forall fuel fuel' current r,
    find_frame_ancestor fuel pm nl current = Some r -> fuel <= fuel' ->
    find_frame_ancestor fuel' pm nl current = Some r.
Proof.
  induction fuel as [|fuel IH]; intros fuel' current r Hr Hle;
    destruct current as [c|]; simpl in *;
    destruct fuel' as [|fuel']; simpl; try done; try lia;
    destruct (negb (dict_truthy c)); try done;
    destruct (is_frame c); try done.
  apply IH; [done|lia].
Qed.

(** Resolving from a screen returns that screen. *)
Lemma find_frame_ancestor_of_frame pm nl fuel c :
  is_frame c = true -> find_frame_ancestor fuel pm nl (Some c) = Some (Some c).
Proof.
  intros Hf.
  assert (Ht : dict_truthy c = true).
  { unfold is_frame in Hf. unfold dict_truthy.
    destruct (n_type c); [|done]. simpl. by rewrite !orb_true_r. }
  destruct fuel; simpl; by rewrite Ht, Hf.
Qed.

(** Whatever the walk returns is a screen with a bounding box. *)
Lemma find_frame_ancestor_is_frame pm nl :
  forall fuel current f,
    find_frame_ancestor fuel pm nl current = Some (Some f) ->
    is_frame f = true /\ dict_truthy f = true.
Proof.
  induction fuel as [|fuel IH]; intros current f Hr;
    destruct current as [c|]; simpl in Hr; try done;
    destruct (dict_truthy c) eqn:Ht; simpl in Hr; try done;
    destruct (is_frame c) eqn:Hf; try done; try (by inversion Hr; subst).
  by apply IH in Hr.
Qed.

Lemma cyc_button_is_its_parent :
  let m := build_node_maps cyc_document empty_maps None in
  parent_step (parent_map m) (node_lookup m) cyc_button = Some cyc_button.
Proof. vm_compute. reflexivity. Qed.

Lemma cyc_walk_never_returns fuel :
  let m := build_node_maps cyc_document empty_maps None in
  find_frame_ancestor fuel (parent_map m) (node_lookup m) (Some cyc_button) = None.
Proof.
  intros m. induction fuel as [|fuel IH]; [reflexivity|].
  change (find_frame_ancestor (S fuel) (parent_map m) (node_lookup m)
            (Some cyc_button))
    with (find_frame_ancestor fuel (parent_map m) (node_lookup m)
            (parent_step (parent_map m) (node_lookup m) cyc_button)).
  subst m. rewrite cyc_button_is_its_parent. exact IH.
Qed.

(** C2, as stated, fails: on the maps built from a document in which a child
    repeats its parent's id, the walk from the child returns for no number of
    turns of the loop. *)
Lemma find_frame_ancestor_loops_on_cycle :
  let m := build_node_maps cyc_document empty_maps None in
  ~ exists fuel r,
      find_frame_ancestor fuel (parent_map m) (node_lookup m) (Some cyc_button)
      = Some r.
Proof.
  intros m [fuel [r Hr]]. subst m. by rewrite cyc_walk_never_returns in Hr.
Qed.

(** When some rank decreases along every step that the walk takes from a
    node that is not a screen, the walk returns within one more turn than
    the rank of the node it starts from. *)
Lemma find_frame_ancestor_returns
    (pm : gmap string (option string)) (nl : gmap string Node)
    (rank : Node -> nat)
    (Hrank : forall c p, dict_truthy c = true -> is_frame c = false ->
               parent_step pm nl c = Some p -> rank p < rank c) :
  forall node fuel, rank node < fuel ->
    exists r, find_frame_ancestor fuel pm nl (Some node) = Some r.
Proof.
  intros node fuel. revert node.
  induction fuel as [|fuel IH]; intros node Hlt; [lia|]. simpl.
  destruct (dict_truthy node) eqn:Ht; simpl; eauto.
  destruct (is_frame node) eqn:Hf; eauto.
  destruct (parent_step pm nl node) as [p|] eqn:Hp.
  - apply IH. specialize (Hrank _ _ Ht Hf Hp). lia.
  - destruct fuel; simpl; eauto.
Qed.

(** *** Documents whose ids are pairwise distinct *)

Lemma index_node_entry node parent m :
  index_node node parent m
  = fold_left apply_entry
      (match n_id node with
       | Some k =>
           if truthy_str (Some k) then [(k, (parent_id_of parent, node))] else []
       | None => []
       end) m.
Proof.
  unfold index_node. destruct (n_id node) as [k|]; [|done].
  by destruct (truthy_str (Some k)).
Qed.

Lemma entries_unfold node parent :
  entries node parent
  = match n_id node with
    | Some k =>
        if truthy_str (Some k) then [(k, (parent_id_of parent, node))] else []
    | None => []
    end
    ++ flat_map (fun child => entries child (Some node)) (children node).
Proof. by destruct node. Qed.

(** Indexing a document makes the insertions of [entries], in order. *)
Lemma build_node_maps_entries node :
  forall m parent,
    build_node_maps node m parent = fold_left apply_entry (entries node parent) m.
Proof.
  induction node as [node IH] using Node_forall_ind. intros m parent.
  rewrite build_node_maps_unfold, entries_unfold, fold_left_app,
    <- index_node_entry.
  generalize (index_node node parent m). clear m.
  induction IH as [|c cs Hc ? IHcs]; intros m; simpl; [done|].
  by rewrite fold_left_app, <- Hc, IHcs.
Qed.

Lemma entries_key node :
  forall parent e, In e (entries node parent) -> n_id (snd (snd e)) = Some (fst e).
Proof.
  induction node as [node IH] using Node_forall_ind. intros parent e.
  rewrite entries_unfold. intros Hin. apply in_app_or in Hin as [Hin|Hin].
  - destruct (n_id node) as [k|] eqn:Hk; [|done].
    destruct (truthy_str (Some k)); [|done].
    by destruct Hin as [<-|[]].
  - apply in_flat_map in Hin as (c & Hc & Hin).
    rewrite Forall_forall in IH.
    apply (IH c (proj2 (list_elem_of_In _ _) Hc) (Some node) e Hin).
Qed.

Lemma apply_entries_parent_map l :
  forall m k pid,
    parent_map (fold_left apply_entry l m) !! k = Some pid ->
    (exists n, In (k, (pid, n)) l) \/ parent_map m !! k = Some pid.
Proof.
  induction l as [|[k' [pid' n']] l IH]; intros m k pid Hl; simpl in *; [by right|].
  apply IH in Hl as [(n & Hn)|Hl]; [left; eauto|].
  simpl in Hl. rewrite lookup_insert in Hl. case_decide as Hk; [|by right].
  injection Hl as <-. subst k'. left. eauto.
Qed.

Lemma apply_entries_node_lookup l :
  forall m k n,
    node_lookup (fold_left apply_entry l m) !! k = Some n ->
    (exists pid, In (k, (pid, n)) l) \/ node_lookup m !! k = Some n.
Proof.
  induction l as [|[k' [pid' n']] l IH]; intros m k n Hl; simpl in *; [by right|].
  apply IH in Hl as [(pid & Hn)|Hl]; [left; eauto|].
  simpl in Hl. rewrite lookup_insert in Hl. case_decide as Hk; [|by right].
  injection Hl as <-. subst k'. left. eauto.
Qed.

Lemma parents_first_weaken l :
  forall seen seen', (forall k, k ∈ seen -> k ∈ seen') ->
    parents_first seen l -> parents_first seen' l.
Proof.
  induction l as [|e l IH]; intros seen seen' Hsub; simpl; [done|].
  intros [He Hl]. split; [by eauto|].
  apply (IH (fst e :: seen)); [|done].
  intros k. rewrite !elem_of_cons. intros [->|Hk]; [by left|right; by apply Hsub].
Qed.

Lemma parents_first_app l1 :
  forall seen l2,
    parents_first seen l1 ->
    parents_first (rev (List.map fst l1) ++ seen) l2 ->
    parents_first seen (l1 ++ l2).
Proof.
  induction l1 as [|e l1 IH]; intros seen l2 H1 H2; simpl in *; [done|].
  destruct H1 as [He H1]. split; [done|].
  apply IH; [done|]. by rewrite <- app_assoc in H2.
Qed.

Lemma entries_parents_first node :
  forall parent seen,
    (forall pk, parent_id_of parent = Some pk -> pk <> "" -> pk ∈ seen) ->
    parents_first seen (entries node parent).
Proof.
  induction node as [node IH] using Node_forall_ind. intros parent seen Hp.
  rewrite entries_unfold.
  set (own := match n_id node with
              | Some k =>
                  if truthy_str (Some k)
                  then [(k, (parent_id_of parent, node))] else []
              | None => []
              end).
  assert (Hown : parents_first seen own).
  { subst own. destruct (n_id node) as [k|]; [|done].
    destruct (truthy_str (Some k)); [|done]. by split. }
  assert (Hseen : forall pk, parent_id_of (Some node) = Some pk -> pk <> "" ->
            pk ∈ rev (List.map fst own) ++ seen).
  { intros pk Hpk Hne. simpl in Hpk.
    destruct (dict_truthy node); [|done]. subst own. rewrite Hpk.
    destruct pk as [|c pk]; [done|]. simpl. apply elem_of_cons. by left. }
  apply parents_first_app; [done|].
  revert Hseen. generalize (rev (List.map fst own) ++ seen). clear Hown Hp.
  induction IH as [|c cs Hc ? IHcs]; intros seen' Hseen; simpl; [done|].
  apply parents_first_app; [by apply Hc|].
  apply IHcs. intros pk Hpk Hne. apply elem_of_app. right. by apply Hseen.
Qed.

Lemma parents_first_split l1 :
  forall seen k pk n l2,
    parents_first seen (l1 ++ (k, (Some pk, n)) :: l2) -> pk <> "" ->
    pk ∈ rev (List.map fst l1) ++ seen.
Proof.
  induction l1 as [|e l1 IH]; intros seen k pk n l2 Hl Hne; simpl in *.
  - destruct Hl as [He _]. by apply He.
  - destruct Hl as [_ Hl]. rewrite <- app_assoc. by apply (IH _ k pk n l2).
Qed.

Lemma index_of_le k l : index_of k l <= length l.
Proof.
  induction l as [|k' l IH]; simpl; [lia|].
  destruct (String.eqb k' k); lia.
Qed.

Lemma index_of_app_in k l1 l2 :
  k ∈ l1 -> index_of k (l1 ++ l2) < length l1.
Proof.
  induction l1 as [|k' l1 IH]; simpl; [by intros ?%elem_of_nil|].
  intros Hin. destruct (String.eqb_spec k' k) as [->|Hne]; [lia|].
  apply elem_of_cons in Hin as [->|Hin]; [done|]. apply IH in Hin. lia.
Qed.

Lemma index_of_app_notin k l1 l2 :
  k ∉ l1 -> index_of k (l1 ++ k :: l2) = length l1.
Proof.
  induction l1 as [|k' l1 IH]; simpl.
  - intros _. by rewrite String.eqb_refl.
  - intros Hnin. apply not_elem_of_cons in Hnin as [Hne Hnin].
    destruct (String.eqb_spec k' k) as [->|_]; [done|]. by rewrite IH.
Qed.

(** On the maps indexed from a document with pairwise distinct ids, every
    step of the ancestor walk leads to a node that was indexed earlier. *)
Lemma distinct_ids_rank_decreases document :
  distinct_ids document ->
  let m := build_node_maps document empty_maps None in
  forall c p, parent_step (parent_map m) (node_lookup m) c = Some p ->
    doc_rank document p < doc_rank document c.
Proof.
  intros Hnd m c p. subst m. rewrite build_node_maps_entries.
  unfold parent_step, doc_rank.
  destruct (n_id c) as [k|]; [|done].
  destruct (parent_map _ !! k) as [[pk|]|] eqn:Hpm; try done.
  destruct pk as [|ch pk']; [done|]. simpl. set (pk := String ch pk') in *.
  intros Hnl.
  apply apply_entries_parent_map in Hpm as [(n & Hin)|Hpm];
    [|simpl in Hpm; by rewrite lookup_empty in Hpm].
  apply apply_entries_node_lookup in Hnl as [(pid & Hinp)|Hnl];
    [|simpl in Hnl; by rewrite lookup_empty in Hnl].
  apply entries_key in Hinp. simpl in Hinp. rewrite Hinp.
  apply in_split in Hin as (l1 & l2 & Hsplit).
  assert (Hpf : parents_first [] (entries document None))
    by (by apply entries_parents_first).
  rewrite Hsplit in Hpf. apply parents_first_split in Hpf; [|done].
  rewrite app_nil_r in Hpf.
  apply list_elem_of_In in Hpf. apply <- in_rev in Hpf.
  apply list_elem_of_In in Hpf.
  unfold distinct_ids, indexed_ids in *. rewrite Hsplit in *.
  rewrite List.map_app in *. simpl in *.
  apply NoDup_app in Hnd as (_ & Hnd & _).
  rewrite index_of_app_notin.
  - by apply index_of_app_in.
  - intros Hk. apply (Hnd k Hk). by left.
Qed.

Lemma doc_rank_bound document n :
  doc_rank document n <= length (nodes document).
Proof.
  assert (Hlen : forall node parent,
            length (entries node parent) <= length (nodes node)).
  { induction node as [node IH] using Node_forall_ind. intros parent.
    rewrite entries_unfold. destruct node as [i nm t b cs ints tr]. simpl in *.
    rewrite length_app.
    assert (Hcs : length (flat_map (fun child => entries child
                    (Some (mkNode i nm t b cs ints tr))) cs)
                  <= length (flat_map nodes cs)).
    { generalize (mkNode i nm t b cs ints tr) at 1. intros node.
      induction IH as [|c cs Hc ? IHcs]; simpl; [lia|].
      rewrite !length_app. specialize (Hc (Some node)). lia. }
    destruct i as [[|ch k]|]; simpl;
      [apply le_S, Hcs | apply le_n_S, Hcs | apply le_S, Hcs]. }
  unfold doc_rank, indexed_ids. destruct (n_id n) as [k|]; [|lia].
  pose proof (index_of_le k (List.map fst (entries document None))) as Hle.
  rewrite length_map in Hle.
  exact (Nat.le_trans _ _ _ Hle (Hlen document None)).
Qed.

(** On the maps indexed from a document with pairwise distinct ids, the
    ancestor walk from any node returns within one more turn than the
    document has nodes. *)
Lemma distinct_ids_walk_returns document node fuel :
  distinct_ids document ->
  length (nodes document) < fuel ->
  let m := build_node_maps document empty_maps None in
  exists r,
    find_frame_ancestor fuel (parent_map m) (node_lookup m) (Some node) = Some r.
Proof.
  intros Hnd Hfuel m.
  apply (find_frame_ancestor_returns (parent_map m) (node_lookup m)
           (doc_rank document)).
  - intros c p _ _. by apply distinct_ids_rank_decreases.
  - pose proof (doc_rank_bound document node). lia.
Qed.

(** C2, amended.  When the parent links are acyclic, that is when some rank
    decreases along every step that the walk takes from a node that is not a
    screen, the walk from a node returns within one more turn than its rank,
    with the same result for any larger number of turns, and what it returns
    is a screen with a bounding box or nothing.  This is so on the maps
    indexed from any document whose ids are pairwise distinct: there the walk
    from any node returns within one more turn than the document has
    nodes. *)
Theorem find_frame_ancestor_terminates_acyclic :
  (forall (pm : gmap string (option string)) (nl : gmap string Node)
          (rank : Node -> nat),
     (forall c p, dict_truthy c = true -> is_frame c = false ->
        parent_step pm nl c = Some p -> rank p < rank c) ->
     forall node, exists r,
       (forall fuel, rank node < fuel ->
          find_frame_ancestor fuel pm nl (Some node) = Some r)
       /\ match r with Some f => is_frame f = true | None => True end)
  /\ (forall document, distinct_ids document ->
        let m := build_node_maps document empty_maps None in
        forall node, exists r,
          (forall fuel, length (nodes document) < fuel ->
             find_frame_ancestor fuel (parent_map m) (node_lookup m) (Some node)
             = Some r)
          /\ match r with Some f => is_frame f = true | None => True end).
Proof.
  assert (Hgen : forall pm nl (rank : Node -> nat),
    (forall c p, dict_truthy c = true -> is_frame c = false ->
       parent_step pm nl c = Some p -> rank p < rank c) ->
    forall node bound, rank node <= bound -> exists r,
      (forall fuel, bound < fuel ->
         find_frame_ancestor fuel pm nl (Some node) = Some r)
      /\ match r with Some f => is_frame f = true | None => True end).
  { intros pm nl rank Hrank node bound Hb.
    destruct (find_frame_ancestor_returns pm nl rank Hrank node (S bound))
      as [r Hr]; [lia|].
    exists r. split.
    - intros fuel Hlt.
      apply (find_frame_ancestor_fuel_mono pm nl (S bound)); [done|lia].
    - destruct r as [f|]; [|done].
      by apply find_frame_ancestor_is_frame in Hr as [Hf _]. }
  split.
  - intros pm nl rank Hrank node. by apply (Hgen pm nl rank Hrank).
  - intros document Hnd m node.
    apply (Hgen (parent_map m) (node_lookup m) (doc_rank document)).
    + intros c p _ _. by apply distinct_ids_rank_decreases.
    + apply doc_rank_bound.
Qed.

Lemma home_parent_map :
  parent_map (build_node_maps home_document empty_maps None)
  = <["1:2" := Some "1:1"]> (<["1:1" := Some "0:0"]> (<["0:0" := None]> ∅)).
Proof. reflexivity. Qed.

Lemma home_node_lookup :
  node_lookup (build_node_maps home_document empty_maps None)
  = <["1:2" := home_button]>
      (<["1:1" := home_screen]> (<["0:0" := home_document]> ∅)).
Proof. reflexivity. Qed.

Lemma home_rank_decreases :
  let m := build_node_maps home_document empty_maps None in
  forall c p, dict_truthy c = true -> is_frame c = false ->
    parent_step (parent_map m) (node_lookup m) c = Some p ->
    home_rank p < home_rank c.
Proof.
  intros m c p _ _. subst m. rewrite home_parent_map, home_node_lookup.
  unfold parent_step, home_rank. destruct (n_id c) as [k|]; [|done].
  destruct (decide (k = "1:2")) as [->|Hk2].
  { rewrite lookup_insert_eq. simpl. rewrite lookup_insert_ne by done.
    rewrite lookup_insert_eq. intros [= <-]. simpl. lia. }
  rewrite lookup_insert_ne by done.
  destruct (decide (k = "1:1")) as [->|Hk1].
  { rewrite lookup_insert_eq. simpl. rewrite !lookup_insert_ne by done.
    rewrite lookup_insert_eq. intros [= <-]. simpl. lia. }
  rewrite lookup_insert_ne by done.
  destruct (decide (k = "0:0")) as [->|Hk0].
  { rewrite lookup_insert_eq. done. }
  rewrite lookup_insert_ne by done. by rewrite lookup_empty.
Qed.

Lemma home_document_distinct_ids : distinct_ids home_document.
Proof. unfold distinct_ids. apply (bool_decide_unpack _). by vm_compute. Qed.

Lemma find_frame_ancestor_terminates_acyclic_witness :
  let m := build_node_maps home_document empty_maps None in
  (exists r,
     (forall fuel, home_rank home_button < fuel ->
        find_frame_ancestor fuel (parent_map m) (node_lookup m)
          (Some home_button) = Some r)
     /\ match r with Some f => is_frame f = true | None => True end)
  /\ (exists r,
        (forall fuel, length (nodes home_document) < fuel ->
           find_frame_ancestor fuel (parent_map m) (node_lookup m)
             (Some home_button) = Some r)
        /\ match r with Some f => is_frame f = true | None => True end).
Proof.
  intros m. split.
  - exact (proj1 find_frame_ancestor_terminates_acyclic
             (parent_map m) (node_lookup m) home_rank home_rank_decreases
             home_button).
  - exact (proj2 find_frame_ancestor_terminates_acyclic
             home_document home_document_distinct_ids home_button).
Defined.

(** ** Clickable Extractor *)

Lemma append_interactions_records node box frame ints :
  forall acc, append_interactions node box frame ints acc
              = acc ++ descriptor_records node box frame ints.
Proof.
  unfold descriptor_records.
  induction ints as [|i ints IH]; intros acc; simpl.
  - by rewrite app_nil_r.
  - rewrite IH. destruct (i_target i) as [[|c t]|]; try reflexivity.
    by rewrite <- app_assoc.
Qed.

Lemma descriptor_records_length node box frame ints :
  length (descriptor_records node box frame ints)
  = length (List.filter (fun i => truthy_str (i_target i)) ints).
Proof.
  unfold descriptor_records.
  induction ints as [|i ints IH]; simpl in *; [done|].
  rewrite length_app, IH.
  by destruct (i_target i) as [[|c t]|].
Qed.

Lemma emit_length node box frame acc :
  qualifies node = true ->
  length (emit node box frame acc) = length acc + node_count node.
Proof.
  intros Hq. unfold emit, node_count. rewrite Hq.
  destruct (prototypeInteractions node) as [ints|].
  - by rewrite append_interactions_records, length_app,
      descriptor_records_length.
  - destruct (transitionNodeID node); [|lia].
    rewrite length_app. simpl. lia.
Qed.

Lemma visit_length fuel node pm nl acc l :
  visit fuel node pm nl acc = Some l ->
  length l = length acc + node_count node.
Proof.
  unfold visit. intros Hv.
  destruct (qualifies node) eqn:Hq.
  - unfold qualifies in Hq. apply andb_true_iff in Hq as [Hl Hb].
    rewrite Hl, Hb in Hv. simpl in Hv.
    destruct (absoluteBoundingBox node) as [box|] eqn:Hbox; [|done].
    destruct (find_frame_ancestor fuel pm nl (Some node)) as [frame|]; [|done].
    injection Hv as <-. apply emit_length.
    unfold qualifies. by rewrite Hl, Hbox.
  - unfold node_count. rewrite Hq.
    unfold qualifies in Hq. apply andb_false_iff in Hq.
    assert (Hg : negb (present (prototypeInteractions node)
                       || present (transitionNodeID node))
                 || negb (present (absoluteBoundingBox node)) = true).
    { destruct Hq as [->| ->]; [done|]. by rewrite orb_true_r. }
    rewrite Hg in Hv. injection Hv as <-. lia.
Qed.

Lemma extract_clickables_unfold fuel node pm nl acc :
  extract_clickables fuel node pm nl acc =
  match
    fold_left
      (fun acc child =>
         match acc with
         | Some c => extract_clickables fuel child pm nl c
         | None => None
         end)
      (children node) (Some acc)
  with
  | Some c => visit fuel node pm nl c
  | None => None
  end.
Proof. by destruct node. Qed.

Lemma fold_extract_none fuel pm nl cs :
  fold_left
    (fun acc child =>
       match acc with
       | Some c => extract_clickables fuel child pm nl c
       | None => None
       end) cs None = None.
Proof. by induction cs. Qed.

Lemma expected_count_unfold node :
  expected_count node
  = node_count node + list_sum (List.map expected_count (children node)).
Proof.
  unfold expected_count. destruct node as [i nm t b cs ints tr]. simpl.
  f_equal. induction cs as [|c cs IH]; simpl; [done|].
  by rewrite List.map_app, list_sum_app, IH.
Qed.

(** Whenever the extraction returns, it has added to the list as many
    records as the specification counts. *)
Lemma extract_clickables_length fuel pm nl node :
  forall acc l, extract_clickables fuel node pm nl acc = Some l ->
    length l = length acc + expected_count node.
Proof.
  induction node as [node IH] using Node_forall_ind. intros acc l.
  rewrite extract_clickables_unfold, expected_count_unfold.
  assert (Hcs : forall acc c,
    fold_left
      (fun acc child =>
         match acc with
         | Some c => extract_clickables fuel child pm nl c
         | None => None
         end) (children node) (Some acc) = Some c ->
    length c = length acc + list_sum (List.map expected_count (children node))).
  { clear acc l. induction IH as [|c cs Hc ? IHcs]; intros acc r; simpl.
    - intros [= <-]. lia.
    - destruct (extract_clickables fuel c pm nl acc) as [a|] eqn:Ha.
      + intros Hr. apply IHcs in Hr. apply Hc in Ha. lia.
      + by rewrite fold_extract_none. }
  destruct (fold_left _ (children node) (Some acc)) as [c|] eqn:Hfold; [|done].
  intros Hv. apply visit_length in Hv. apply Hcs in Hfold. lia.
Qed.

Lemma visit_returns fuel node pm nl acc r :
  find_frame_ancestor fuel pm nl (Some node) = Some r ->
  exists l, visit fuel node pm nl acc = Some l.
Proof.
  intros Hr. unfold visit. rewrite Hr.
  destruct (negb _ || negb _); [eauto|].
  destruct (absoluteBoundingBox node); eauto.
Qed.

(** The extraction returns as soon as every ancestor walk that it starts
    does. *)
Lemma extract_clickables_returns fuel pm nl node :
  (forall n, In n (nodes node) ->
     exists r, find_frame_ancestor fuel pm nl (Some n) = Some r) ->
  forall acc, exists l, extract_clickables fuel node pm nl acc = Some l.
Proof.
  induction node as [node IH] using Node_forall_ind. intros Hwalk acc.
  rewrite extract_clickables_unfold.
  assert (Hcs : forall acc, exists c,
    fold_left
      (fun acc child =>
         match acc with
         | Some c => extract_clickables fuel child pm nl c
         | None => None
         end) (children node) (Some acc) = Some c).
  { assert (Hsub : forall n, In n (flat_map nodes (children node)) ->
       exists r, find_frame_ancestor fuel pm nl (Some n) = Some r).
    { intros n Hn. apply Hwalk. destruct node. simpl. by right. }
    clear Hwalk acc. induction IH as [|c cs Hc ? IHcs]; intros acc; simpl.
    - eauto.
    - destruct (Hc (fun n Hn => Hsub n (in_or_app _ _ _ (or_introl Hn))) acc)
        as [a ->].
      apply IHcs. intros n Hn. apply Hsub. simpl. apply in_or_app. by right. }
  destruct (Hcs acc) as [c ->].
  destruct (Hwalk node) as [r Hr]; [destruct node; simpl; by left|].
  by apply visit_returns with (r := r).
Qed.

(** C5.  Whenever the extraction returns, the number of records that it
    emitted is the sum, over the qualifying nodes, of the number of
    interaction descriptors with a target for a node that has descriptors and
    of one for a node that has the legacy field only; it does return, within
    the fuel that the ranks ask for, on all maps whose parent links are
    acyclic, hence on the maps indexed from any document whose ids are
    pairwise distinct; and a node with descriptors contributes the records of
    its descriptors and nothing else, whether or not it also has the legacy
    field. *)
Theorem extraction_count_invariant :
  (forall fuel document pm nl l,
     extract_clickables fuel document pm nl [] = Some l ->
     length l = expected_count document)
  /\ (forall pm nl (rank : Node -> nat),
        (forall c p, dict_truthy c = true -> is_frame c = false ->
           parent_step pm nl c = Some p -> rank p < rank c) ->
        forall document fuel,
          (forall n, In n (nodes document) -> rank n < fuel) ->
          exists l, extract_clickables fuel document pm nl [] = Some l
                    /\ length l = expected_count document)
  /\ (forall document fuel,
        distinct_ids document -> length (nodes document) < fuel ->
        let m := build_node_maps document empty_maps None in
        exists l,
          extract_clickables fuel document (parent_map m) (node_lookup m) []
          = Some l
          /\ length l = expected_count document)
  /\ (forall node box frame acc interactions,
        prototypeInteractions node = Some interactions ->
        emit node box frame acc
        = acc ++ descriptor_records node box frame interactions).
Proof.
  split; [|split; [|split]].
  - intros fuel document pm nl l Hl.
    by apply extract_clickables_length in Hl.
  - intros pm nl rank Hrank document fuel Hfuel.
    destruct (extract_clickables_returns fuel pm nl document)
      with (acc := @nil Clickable) as [l Hl].
    { intros n Hn.
      by apply (find_frame_ancestor_returns pm nl rank Hrank), Hfuel. }
    exists l. split; [done|]. by apply extract_clickables_length in Hl.
  - intros document fuel Hnd Hfuel m.
    destruct (extract_clickables_returns fuel (parent_map m) (node_lookup m)
                document) with (acc := @nil Clickable) as [l Hl].
    { intros n _. by apply distinct_ids_walk_returns. }
    exists l. split; [done|]. by apply extract_clickables_length in Hl.
  - intros node box frame acc ints Hints. unfold emit. rewrite Hints.
    apply append_interactions_records.
Qed.

Lemma extraction_count_invariant_witness :
  let m := build_node_maps home_document empty_maps None in
  (exists l,
     extract_clickables 3 home_document (parent_map m) (node_lookup m) []
     = Some l
     /\ length l = expected_count home_document)
  /\ (exists l,
        extract_clickables 4 home_document (parent_map m) (node_lookup m) []
        = Some l
        /\ length l = expected_count home_document).
Proof.
  intros m. destruct extraction_count_invariant as (_ & Hrank & Hdoc & _).
  split.
  - apply (Hrank _ _ home_rank home_rank_decreases).
    intros n Hn. simpl in Hn.
    destruct Hn as [<-|[<-|[<-|[]]]]; vm_compute; lia.
  - apply (Hdoc home_document 4 home_document_distinct_ids).
    vm_compute. lia.
Defined.

(** A node with both forms yields the record of its one targeted descriptor
    and no record for the legacy field. *)
Example both_forms_node_extracted :
  List.map navigates_to
    (default [] (extract_clickables 1 both_forms_node ∅ ∅ []))
  = ["8:2"]
  /\ expected_count both_forms_node = 1.
Proof. split; reflexivity. Qed.

(** *** Rounding *)




(** *** Tap positions *)

Lemma descriptor_records_made node box frame ints :
  Forall (fun r => exists t ty, r = make_clickable node box frame t ty)
    (descriptor_records node box frame ints).
Proof.
  unfold descriptor_records. induction ints as [|i ints IH]; simpl; [done|].
  apply Forall_app. split; [|exact IH].
  destruct (i_target i) as [[|c t]|]; repeat constructor; eauto.
Qed.

Lemma emit_records node box frame acc :
  exists new,
    emit node box frame acc = acc ++ new
    /\ Forall (fun r => exists t ty, r = make_clickable node box frame t ty) new.
Proof.
  unfold emit. destruct (prototypeInteractions node) as [ints|].
  - exists (descriptor_records node box frame ints). split.
    + apply append_interactions_records.
    + apply descriptor_records_made.
  - destruct (transitionNodeID node) as [t|].
    + eexists. split; [done|]. repeat constructor. eauto.
    + exists []. split; [by rewrite app_nil_r|done].
Qed.







(** ** Ordering Engine *)

(** *** The stable sort, for any key and any strict weak order on keys *)

Section PySortedFacts.
Context {A K : Type} (key : A -> K) (ltb : K -> K -> bool).
Hypothesis ltb_irrefl : forall a, ltb a a = false.
Hypothesis ltb_trans :
  forall a b c, ltb a b = true -> ltb b c = true -> ltb a c = true.
Hypothesis ltb_negtrans :
  forall a b c, ltb a b = false -> ltb b c = false -> ltb a c = false.

(** [x] may stand before [y]: [y] is not smaller. *)
Let may_precede (x y : A) : Prop := ltb (key y) (key x) = false.

Lemma ltb_asym a b : ltb a b = true -> ltb b a = false.
Proof.
  intros Hab. destruct (ltb b a) eqn:Hba; [|done].
  by rewrite <- (ltb_irrefl a), (ltb_trans a b a).
Qed.

Lemma insert_by_perm x l : Permutation (insert_by key ltb x l) (x :: l).
Proof.
  induction l as [|y l IH]; simpl; [done|].
  destruct (ltb (key y) (key x)); [|done].
  rewrite IH. apply perm_swap.
Qed.

Lemma py_sorted_perm l : Permutation (py_sorted key ltb l) l.
Proof.
  induction l as [|x l IH]; simpl; [done|].
  rewrite insert_by_perm. by constructor.
Qed.

Lemma insert_by_sorted x l :
  StronglySorted may_precede l ->
  StronglySorted may_precede (insert_by key ltb x l).
Proof.
  induction 1 as [|y l Hl IH Hy]; simpl.
  - repeat constructor.
  - destruct (ltb (key y) (key x)) eqn:Hyx.
    + constructor; [exact IH|].
      rewrite insert_by_perm. constructor; [|exact Hy].
      by apply ltb_asym.
    + constructor; [by constructor|].
      constructor; [exact Hyx|].
      eapply Forall_impl; [exact Hy|]. intros z Hz. unfold may_precede in *.
      by apply (ltb_negtrans _ (key y)).
Qed.

Lemma py_sorted_sorted l : StronglySorted may_precede (py_sorted key ltb l).
Proof.
  induction l as [|x l IH]; simpl; [constructor|]. by apply insert_by_sorted.
Qed.

Lemma insert_by_head x l :
  Forall (may_precede x) l -> insert_by key ltb x l = x :: l.
Proof.
  destruct 1 as [|y l Hy _]; simpl; [done|].
  unfold may_precede in Hy. by rewrite Hy.
Qed.

Lemma py_sorted_fixes_sorted l :
  StronglySorted may_precede l -> py_sorted key ltb l = l.
Proof.
  induction 1 as [|x l Hl IH Hx]; simpl; [done|].
  rewrite IH. by apply insert_by_head.
Qed.

Lemma py_sorted_idempotent l :
  py_sorted key ltb (py_sorted key ltb l) = py_sorted key ltb l.
Proof. apply py_sorted_fixes_sorted, py_sorted_sorted. Qed.

(** Stability: the records whose key compares equal to [k] come out in the
    order in which they came in. *)
Lemma insert_by_filter_equiv k x l :
  List.filter (fun z => key_equiv ltb (key z) k) (insert_by key ltb x l)
  = List.filter (fun z => key_equiv ltb (key z) k) (x :: l).
Proof.
  induction l as [|y l IH]; simpl; [done|].
  destruct (ltb (key y) (key x)) eqn:Hyx; [|done].
  simpl in *. rewrite IH.
  destruct (key_equiv ltb (key x) k) eqn:Hx; [|done].
  destruct (key_equiv ltb (key y) k) eqn:Hy; [|done].
  unfold key_equiv in Hx, Hy.
  apply andb_true_iff in Hx as [_ Hx], Hy as [Hy _].
  apply negb_true_iff in Hx, Hy.
  by rewrite (ltb_negtrans _ _ _ Hy Hx) in Hyx.
Qed.

Lemma py_sorted_stable k l :
  List.filter (fun z => key_equiv ltb (key z) k) (py_sorted key ltb l)
  = List.filter (fun z => key_equiv ltb (key z) k) l.
Proof.
  induction l as [|x l IH]; simpl; [done|].
  rewrite insert_by_filter_equiv. simpl. by rewrite IH.
Qed.

(** A list whose keys increase strictly is the sorted form of each of its
    permutations. *)
Lemma py_sorted_of_perm l0 :
  StronglySorted (fun x y => ltb (key x) (key y) = true) l0 ->
  forall l, Permutation l l0 -> py_sorted key ltb l = l0.
Proof.
  intros Hl0 l Hperm.
  assert (Hs : StronglySorted may_precede (py_sorted key ltb l))
    by apply py_sorted_sorted.
  assert (Hp : Permutation (py_sorted key ltb l) l0)
    by (by rewrite py_sorted_perm).
  revert Hs Hp. generalize (py_sorted key ltb l). clear l Hperm.
  induction Hl0 as [|x l0 Hl0 IH Hx]; intros s Hs Hp.
  - by apply Permutation_sym, Permutation_nil in Hp.
  - destruct s as [|y s]; [by apply Permutation_nil in Hp|].
    apply StronglySorted_inv in Hs as [Hs Hy].
    assert (y = x) as ->.
    { assert (Hyin : In y (x :: l0))
        by (eapply Permutation_in; [exact Hp|by left]).
      destruct Hyin as [->|Hyin]; [done|].
      assert (Hxy : ltb (key x) (key y) = true).
      { rewrite Forall_forall in Hx. apply Hx. by apply list_elem_of_In. }
      assert (Hxin : In x (y :: s))
        by (eapply Permutation_in; [symmetry; exact Hp|by left]).
      destruct Hxin as [->|Hxin]; [done|].
      rewrite Forall_forall in Hy.
      specialize (Hy x (proj2 (list_elem_of_In _ _) Hxin)).
      unfold may_precede in Hy. congruence. }
    f_equal. apply IH; [exact Hs|]. by apply Permutation_cons_inv in Hp.
Qed.

End PySortedFacts.

(** *** The order on sort keys *)

Lemma key_ltb_spec (a b : Key) :
  key_ltb a b = true
  <-> (fst a < fst b)%Z \/ (fst a = fst b /\ (snd a < snd b)%Q).
Proof.
  unfold key_ltb.
  destruct (Z.compare_spec (fst a) (fst b)) as [He|Hl|Hg];
    [destruct (Qcompare_spec (snd a) (snd b)) as [Hqe|Hql|Hqg]|..];
    split; try done; try (intros _; by auto);
    intros [H|[H1 H2]]; try lia; lra.
Qed.

Lemma key_ltb_false (a b : Key) :
  key_ltb a b = false
  <-> (fst b < fst a)%Z \/ (fst a = fst b /\ (snd b <= snd a)%Q).
Proof.
  rewrite <- not_true_iff_false, key_ltb_spec. split.
  - intros Hn. destruct (Z.compare_spec (fst a) (fst b)) as [He|Hl|Hg].
    + right. split; [done|]. destruct (Qlt_le_dec (snd a) (snd b)); [|done].
      exfalso. apply Hn. by right.
    + exfalso. apply Hn. by left.
    + by left.
  - intros [H|[H1 H2]] [H'|[H1' H2']]; try lia. lra.
Qed.

Lemma key_ltb_irrefl a : key_ltb a a = false.
Proof. apply key_ltb_false. right. split; [done|lra]. Qed.

Lemma key_ltb_trans a b c :
  key_ltb a b = true -> key_ltb b c = true -> key_ltb a c = true.
Proof.
  rewrite !key_ltb_spec.
  intros [H|[H1 H2]] [H'|[H1' H2']]; try (left; lia).
  right. split; [congruence|lra].
Qed.

Lemma key_ltb_negtrans a b c :
  key_ltb a b = false -> key_ltb b c = false -> key_ltb a c = false.
Proof.
  rewrite !key_ltb_false.
  intros [H|[H1 H2]] [H'|[H1' H2']]; try (left; lia).
  right. split; [congruence|lra].
Qed.

(** *** The sort key *)

Lemma sort_key_start nm start r :
  from_screen r = start -> sort_key nm start r = (0%Z, 0%Q).
Proof. intros <-. unfold sort_key. by rewrite String.eqb_refl. Qed.

Lemma sort_key_other nm start r :
  from_screen r <> start ->
  sort_key nm start r =
    match target_order_preference (target_name_of nm (navigates_to r)) with
    | Some rank => (1%Z, inject_Z rank)
    | None => (2%Z, element_y r)
    end.
Proof.
  intros Hne. unfold sort_key.
  by destruct (String.eqb_spec (from_screen r) start).
Qed.

Lemma target_order_preference_none n :
  n <> "3" -> n <> "2" -> target_order_preference n = None.
Proof.
  intros H3 H2. unfold target_order_preference.
  destruct (String.eqb_spec n "3"); [done|].
  by destruct (String.eqb_spec n "2").
Qed.

(** C4.  The sort key is (0, 0) for a record that leaves the start screen;
    otherwise (1, 1) when the stripped name of its target (["Unknown"] for an
    id without a name) is "3" and (1, 2) when it is "2"; otherwise
    (2, element_y).  Hence five records A (from the start screen), B (to
    "3"), C (to "2"), D and E (ordinary, at heights 50 and 10) come out as
    A, B, C, E, D in whatever order they come in. *)
Theorem sort_key_tiers (nm : gmap string string) (start : string) :
  (forall r, from_screen r = start -> sort_key nm start r = (0%Z, 0%Q))
  /\ (forall r, from_screen r <> start ->
        strip (default "Unknown" (nm !! navigates_to r)) = "3" ->
        sort_key nm start r = (1%Z, 1%Q))
  /\ (forall r, from_screen r <> start ->
        strip (default "Unknown" (nm !! navigates_to r)) = "2" ->
        sort_key nm start r = (1%Z, 2%Q))
  /\ (forall r, from_screen r <> start ->
        strip (default "Unknown" (nm !! navigates_to r)) <> "3" ->
        strip (default "Unknown" (nm !! navigates_to r)) <> "2" ->
        sort_key nm start r = (2%Z, element_y r))
  /\ (forall A B C D E,
        from_screen A = start ->
        from_screen B <> start -> target_name_of nm (navigates_to B) = "3" ->
        from_screen C <> start -> target_name_of nm (navigates_to C) = "2" ->
        from_screen D <> start ->
        target_order_preference (target_name_of nm (navigates_to D)) = None ->
        (element_y D == 50)%Q ->
        from_screen E <> start ->
        target_order_preference (target_name_of nm (navigates_to E)) = None ->
        (element_y E == 10)%Q ->
        forall l, Permutation l [A; B; C; D; E] ->
          sort_clickables l nm start = [A; B; C; E; D]).
Proof.
  assert (Hname : forall r,
    strip (default "Unknown" (nm !! navigates_to r))
    = target_name_of nm (navigates_to r)).
  { intros r. unfold target_name_of. by destruct (nm !! navigates_to r). }
  split; [|split; [|split; [|split]]].
  - intros r. apply sort_key_start.
  - intros r Hne Hn. rewrite sort_key_other by done. by rewrite <- Hname, Hn.
  - intros r Hne Hn. rewrite sort_key_other by done. by rewrite <- Hname, Hn.
  - intros r Hne H3 H2. rewrite sort_key_other by done.
    rewrite target_order_preference_none; by rewrite <- ?Hname.
  - intros A B C D E HA HB HB3 HC HC2 HD HDn HDy HE HEn HEy l Hperm.
    unfold sort_clickables.
    apply (py_sorted_of_perm _ key_ltb key_ltb_irrefl key_ltb_trans
             key_ltb_negtrans [A; B; C; E; D]).
    + repeat constructor; cbv beta;
        rewrite ?(sort_key_start nm start A HA), ?sort_key_other,
          ?HB3, ?HC2, ?HDn, ?HEn by done;
        try reflexivity.
      apply key_ltb_spec. right. simpl. split; [done|]. lra.
    + rewrite Hperm. do 3 constructor. apply perm_swap.
Qed.

Lemma sort_key_tiers_witness :
  sort_clickables [tier_E; tier_D; tier_C; tier_B; tier_A] tier_names "Splash"
  = [tier_A; tier_B; tier_C; tier_E; tier_D].
Proof.
  destruct (sort_key_tiers tier_names "Splash") as (_ & _ & _ & _ & Horder).
  apply (Horder tier_A tier_B tier_C tier_D tier_E);
    try reflexivity; try discriminate.
  apply Permutation_sym, (Permutation_rev [tier_A; tier_B; tier_C; tier_D; tier_E]).
Defined.

(** C7.  The ordering is a stable total sort: its output is a permutation of
    its input in which no record is followed by one with a smaller key, the
    records whose keys compare equal to any given key keep their input order,
    and sorting the output again changes nothing. *)
Theorem sort_clickables_stable_total
    (nm : gmap string string) (start : string) (l : list Clickable) :
  Permutation (sort_clickables l nm start) l
  /\ StronglySorted
       (fun a b => key_ltb (sort_key nm start b) (sort_key nm start a) = false)
       (sort_clickables l nm start)
  /\ (forall k : Key,
        List.filter (fun r => key_equiv key_ltb (sort_key nm start r) k)
          (sort_clickables l nm start)
        = List.filter (fun r => key_equiv key_ltb (sort_key nm start r) k) l)
  /\ sort_clickables (sort_clickables l nm start) nm start
     = sort_clickables l nm start.
Proof.
  unfold sort_clickables. split; [|split; [|split]].
  - apply py_sorted_perm.
  - apply (py_sorted_sorted _ key_ltb key_ltb_irrefl key_ltb_trans
             key_ltb_negtrans).
  - intros k. apply (py_sorted_stable _ key_ltb key_ltb_negtrans).
  - apply (py_sorted_idempotent _ key_ltb key_ltb_irrefl key_ltb_trans
             key_ltb_negtrans).
Qed.

(** ** Screenshot Cache and Fetch Orchestrator *)

Section FetchFacts.
Variable render : list Event -> string -> RenderResult.
Variable download : list Event -> string -> string -> option string.
Variable name_map : gmap string string.

Lemma fetch_from_app st l1 l2 :
  fetch_from render download name_map st (l1 ++ l2)
  = fetch_from render download name_map
      (fetch_from render download name_map st l1) l2.
Proof. apply fold_left_app. Qed.

Lemma fetch_from_cons st item l :
  fetch_from render download name_map st (item :: l)
  = fetch_from render download name_map
      (fetch_item render download name_map st item) l.
Proof. reflexivity. Qed.

(** A turn of the loop appends one record: the item itself or the item with
    a path. *)
Lemma fetch_item_processed st item :
  exists item',
    processed (fetch_item render download name_map st item) = processed st ++ [item']
    /\ (item' = item
        \/ item' = with_screenshot item
                     (Path (file_path_of name_map (navigates_to item)))
        \/ exists p, downloaded st !! navigates_to item = Some p
                     /\ item' = with_screenshot item (Path p)).
Proof.
  unfold fetch_item.
  destruct (downloaded st !! navigates_to item) as [p|] eqn:Hd.
  { eexists. split; [done|]. right. right. by exists p. }
  destruct (render (trace st) (navigates_to item)) as [|[u|]]; simpl; eauto.
  destruct u as [|c u]; simpl; eauto.
  destruct (download _ _ _); simpl; eauto.
Qed.

(** A cache hit: the path is reused and nothing leaves the process. *)
Lemma fetch_item_hit st item p :
  downloaded st !! navigates_to item = Some p ->
  fetch_item render download name_map st item
  = mkFetchState (downloaded st) (trace st) (files st)
      (processed st ++ [with_screenshot item (Path p)]).
Proof. intros Hd. unfold fetch_item. by rewrite Hd. Qed.

(** A successful fetch. *)
Lemma fetch_item_saved st item u data :
  let t := navigates_to item in
  let p := file_path_of name_map t in
  downloaded st !! t = None ->
  render (trace st) t = RenderReturned (Some u) -> u <> "" ->
  download (EvRender t :: trace st) u p = Some data ->
  fetch_item render download name_map st item
  = mkFetchState (<[t := p]> (downloaded st))
      (EvDownload t u p :: EvRender t :: trace st)
      (<[p := data]> (files st))
      (processed st ++ [with_screenshot item (Path p)]).
Proof.
  intros t p Hd Hr Hu Hdl. unfold fetch_item. fold t. fold p.
  rewrite Hd, Hr. destruct u as [|c u]; [done|]. simpl. by rewrite Hdl.
Qed.

(** A turn for another target leaves the calls and the cache entry of [t]
    as they are. *)
Lemma fetch_item_other t st item :
  navigates_to item <> t ->
  let st' := fetch_item render download name_map st item in
  render_calls t (trace st') = render_calls t (trace st)
  /\ download_calls t (trace st') = download_calls t (trace st)
  /\ downloaded st' !! t = downloaded st !! t.
Proof.
  intros Hne. apply String.eqb_neq in Hne as Hneb.
  unfold fetch_item, render_calls, download_calls.
  destruct (downloaded st !! navigates_to item) as [p|] eqn:Hd; [done|].
  destruct (render (trace st) (navigates_to item)) as [|[u|]]; simpl;
    rewrite ?Hneb; try done.
  destruct u as [|c u]; simpl; rewrite ?Hneb; try done.
  destruct (download _ _ _); simpl; rewrite ?Hneb; try done.
  by rewrite lookup_insert_ne.
Qed.

(** The records before the first one that leads to [t]. *)
Lemma fetch_from_others t l :
  Forall (fun x => navigates_to x <> t) l ->
  forall st,
    let st' := fetch_from render download name_map st l in
    render_calls t (trace st') = render_calls t (trace st)
    /\ download_calls t (trace st') = download_calls t (trace st)
    /\ downloaded st' !! t = downloaded st !! t
    /\ exists l', processed st' = processed st ++ l'
                  /\ Forall (fun x => navigates_to x <> t) l'.
Proof.
  induction 1 as [|item l Hitem _ IH]; intros st; cbv zeta in *.
  - repeat split; try done. exists []. by rewrite app_nil_r.
  - rewrite fetch_from_cons.
    destruct (IH (fetch_item render download name_map st item))
      as (-> & -> & -> & l' & -> & Hl').
    destruct (fetch_item_other t st item Hitem) as (-> & -> & ->).
    repeat split; try done.
    destruct (fetch_item_processed st item) as (item' & -> & Hitem').
    exists (item' :: l'). split; [by rewrite <- app_assoc|].
    constructor; [|done].
    destruct Hitem' as [->|[->|(p & _ & ->)]]; done.
Qed.

(** Once [t] is in the cache, the rest of the run makes no call for [t] and
    gives its path to every record that leads to [t]. *)
Lemma fetch_from_cached t p l :
  forall st, downloaded st !! t = Some p ->
    let st' := fetch_from render download name_map st l in
    render_calls t (trace st') = render_calls t (trace st)
    /\ download_calls t (trace st') = download_calls t (trace st)
    /\ exists l', processed st' = processed st ++ l'
                  /\ Forall (fun x => navigates_to x = t ->
                                      screenshot x = Path p) l'.
Proof.
  induction l as [|item l IH]; intros st Hd; cbv zeta in *.
  - repeat split; try done. exists []. by rewrite app_nil_r.
  - rewrite fetch_from_cons.
    destruct (decide (navigates_to item = t)) as [Ht|Ht].
    + rewrite (fetch_item_hit st item p) by by rewrite Ht.
      destruct (IH (mkFetchState (downloaded st) (trace st) (files st)
                      (processed st ++ [with_screenshot item (Path p)])) Hd)
        as (-> & -> & l' & -> & Hl').
      repeat split; try done.
      exists (with_screenshot item (Path p) :: l'). simpl.
      split; [by rewrite <- app_assoc|]. by constructor.
    + destruct (fetch_item_other t st item Ht) as (Hr & Hdl & Hd').
      destruct (IH (fetch_item render download name_map st item))
        as (-> & -> & l' & -> & Hl');
        [by rewrite Hd'|].
      rewrite Hr, Hdl. repeat split; try done.
      destruct (fetch_item_processed st item) as (item' & -> & Hitem').
      exists (item' :: l'). split; [by rewrite <- app_assoc|].
      constructor; [|done].
      destruct Hitem' as [->|[->|(q & _ & ->)]]; done.
Qed.

Lemma fetch_item_cache_ok st item :
  cache_ok name_map st ->
  cache_ok name_map (fetch_item render download name_map st item)
  /\ exists item',
       processed (fetch_item render download name_map st item)
       = processed st ++ [item']
       /\ fetched_from name_map item' item.
Proof.
  intros Hok. unfold fetch_item, fetched_from.
  destruct (downloaded st !! navigates_to item) as [p|] eqn:Hd.
  { split; [done|]. eexists. split; [done|]. right.
    by rewrite (Hok _ _ Hd). }
  destruct (render (trace st) (navigates_to item)) as [|[u|]]; simpl; eauto.
  destruct u as [|c u]; simpl; eauto.
  destruct (download _ _ _); simpl; eauto.
  split; [|by eauto].
  intros t p. simpl. rewrite lookup_insert.
  case_decide as Ht; [|apply Hok]. intros [= <-]. by rewrite Ht.
Qed.

(** The fetch phase keeps the records in order and touches nothing but
    their screenshot. *)
Lemma fetch_from_cache_ok l :
  forall st, cache_ok name_map st ->
    cache_ok name_map (fetch_from render download name_map st l)
    /\ exists l',
         processed (fetch_from render download name_map st l)
         = processed st ++ l'
         /\ Forall2 (fetched_from name_map) l' l.
Proof.
  induction l as [|item l IH]; intros st Hok.
  - split; [done|]. exists []. split; [by rewrite app_nil_r|constructor].
  - rewrite fetch_from_cons.
    destruct (fetch_item_cache_ok st item Hok) as (Hok' & item' & Hp & Hitem').
    destruct (IH _ Hok') as (Hok'' & l' & -> & Hl').
    split; [done|]. exists (item' :: l'). rewrite Hp.
    split; [by rewrite <- app_assoc|by constructor].
Qed.

End FetchFacts.

Lemma render_calls_saved t u p tr :
  render_calls t (EvDownload t u p :: EvRender t :: tr) = S (render_calls t tr).
Proof. unfold render_calls. simpl. by rewrite String.eqb_refl. Qed.

Lemma download_calls_saved t u p tr :
  download_calls t (EvDownload t u p :: EvRender t :: tr)
  = S (download_calls t tr).
Proof. unfold download_calls. simpl. by rewrite String.eqb_refl. Qed.

Lemma fetch_phase_records render download nm ordered :
  Forall2 (fetched_from nm)
    (processed (fetch_phase render download nm ordered)) ordered.
Proof.
  destruct (fetch_from_cache_ok render download nm ordered fetch_init)
    as (_ & l' & Hp & Hl'); [done|].
  unfold fetch_phase. by rewrite Hp.
Qed.

(** C3, as stated, fails: when the render service has no URL for the target,
    nothing enters the cache, so two records that share the target cause two
    render requests and no download. *)
Lemma cache_miss_repeats_render :
  let st := fetch_phase render_no_url download_fails ∅ [dup_first; dup_second] in
  navigates_to dup_first = navigates_to dup_second
  /\ render_calls "2:1" (trace st) = 2
  /\ download_calls "2:1" (trace st) = 0
  /\ ~ (render_calls "2:1" (trace st) = 1 /\ download_calls "2:1" (trace st) = 1).
Proof.
  repeat split; try reflexivity. intros [H _]. vm_compute in H. discriminate.
Qed.

(** When the first request fails and the second succeeds, two records that
    share the target end the run with different screenshots. *)
Example flaky_network_paths_differ :
  List.map screenshot
    (processed (fetch_phase render_flaky download_ok ∅ [dup_first; dup_second]))
  = [Null; Path "screenshots/Target.png"].
Proof. reflexivity. Qed.

(** C3, amended.  When the fetch made for the first record that leads to
    [t] succeeds (the render service returns a URL and the download
    completes), the whole run makes exactly one render request and exactly
    one download for [t], and every record that leads to [t] ends the run
    with the same path. *)
Theorem screenshot_cache_single_fetch
    (render : list Event -> string -> RenderResult)
    (download : list Event -> string -> string -> option string)
    (nm : gmap string string)
    (pre post : list Clickable) (r : Clickable) (u data : string) :
  let t := navigates_to r in
  let p := file_path_of nm t in
  let st1 := fetch_phase render download nm pre in
  Forall (fun x => navigates_to x <> t) pre ->
  render (trace st1) t = RenderReturned (Some u) -> u <> "" ->
  download (EvRender t :: trace st1) u p = Some data ->
  let st := fetch_phase render download nm (pre ++ r :: post) in
  render_calls t (trace st) = 1
  /\ download_calls t (trace st) = 1
  /\ Forall (fun x => navigates_to x = t -> screenshot x = Path p) (processed st)
  /\ Forall2 (fetched_from nm) (processed st) (pre ++ r :: post).
Proof.
  intros t p st1 Hpre Hr Hu Hdl st.
  destruct (fetch_from_others render download nm t pre Hpre fetch_init)
    as (Hrc & Hdc & Hd & l' & Hp & Hl').
  fold (fetch_phase render download nm pre) in *.
  fold st1 in Hrc, Hdc, Hd, Hp. simpl in Hrc, Hdc, Hd, Hp.
  rewrite lookup_empty in Hd.
  pose proof (fetch_item_saved render download nm st1 r u data Hd Hr Hu Hdl)
    as Hstep. fold t in Hstep. fold p in Hstep.
  assert (Hst : st = fetch_from render download nm
                       (fetch_item render download nm st1 r) post).
  { subst st st1. unfold fetch_phase.
    by rewrite fetch_from_app, fetch_from_cons. }
  destruct (fetch_from_cached render download nm t p post
              (fetch_item render download nm st1 r))
    as (Hrc' & Hdc' & l'' & Hp' & Hl'').
  { rewrite Hstep. simpl. apply lookup_insert_eq. }
  rewrite <- Hst in Hrc', Hdc', Hp'. rewrite Hstep in Hrc', Hdc', Hp'.
  simpl in Hrc', Hdc', Hp'.
  rewrite render_calls_saved in Hrc'. rewrite download_calls_saved in Hdc'.
  split; [by rewrite Hrc', Hrc|]. split; [by rewrite Hdc', Hdc|].
  split; [|apply fetch_phase_records].
  rewrite Hp', Hp. repeat (apply Forall_app; split).
  - eapply Forall_impl; [exact Hl'|]. by intros x Hx Hx'.
  - by repeat constructor.
  - exact Hl''.
Qed.

Lemma screenshot_cache_single_fetch_witness :
  let st := fetch_phase render_ok download_ok ∅
              ([tier_A] ++ dup_first :: [dup_second]) in
  render_calls "2:1" (trace st) = 1
  /\ download_calls "2:1" (trace st) = 1
  /\ Forall (fun x => navigates_to x = "2:1" ->
                      screenshot x = Path (file_path_of ∅ "2:1")) (processed st)
  /\ Forall2 (fetched_from ∅) (processed st)
       ([tier_A] ++ dup_first :: [dup_second]).
Proof.
  apply (screenshot_cache_single_fetch render_ok download_ok ∅
           [tier_A] [dup_second] dup_first
           "https://img/2:1" "bytes of https://img/2:1").
  - repeat constructor. discriminate.
  - reflexivity.
  - discriminate.
  - reflexivity.
Defined.



(** ** Summary and run *)

(** Every record that the extraction appends is a fresh dict literal, whose
    screenshot is [None]. *)
Lemma visit_null fuel node pm nl acc l :
  Forall (fun r => screenshot r = Null) acc ->
  visit fuel node pm nl acc = Some l ->
  Forall (fun r => screenshot r = Null) l.
Proof.
  intros Hacc. unfold visit.
  destruct (negb _ || negb _); [by intros [= <-]|].
  destruct (absoluteBoundingBox node) as [box|]; [|by intros [= <-]].
  destruct (find_frame_ancestor fuel pm nl (Some node)) as [frame|]; [|done].
  intros [= <-].
  destruct (emit_records node box frame acc) as (new & -> & Hnew).
  apply Forall_app. split; [done|].
  eapply Forall_impl; [exact Hnew|]. by intros r (t & ty & ->).
Qed.

Lemma extract_clickables_null fuel pm nl node :
  forall acc l,
    Forall (fun r => screenshot r = Null) acc ->
    extract_clickables fuel node pm nl acc = Some l ->
    Forall (fun r => screenshot r = Null) l.
Proof.
  induction node as [node IH] using Node_forall_ind. intros acc l Hacc.
  rewrite extract_clickables_unfold.
  assert (Hcs : forall acc c,
    Forall (fun r => screenshot r = Null) acc ->
    fold_left
      (fun acc child =>
         match acc with
         | Some c => extract_clickables fuel child pm nl c
         | None => None
         end) (children node) (Some acc) = Some c ->
    Forall (fun r => screenshot r = Null) c).
  { clear acc l Hacc. induction IH as [|c cs Hc ? IHcs]; intros acc r Hacc; simpl.
    - by intros [= <-].
    - destruct (extract_clickables fuel c pm nl acc) as [a|] eqn:Ha.
      + apply IHcs. by apply (Hc acc).
      + by rewrite fold_extract_none. }
  destruct (fold_left _ (children node) (Some acc)) as [c|] eqn:Hfold; [|done].
  apply visit_null. by apply (Hcs acc).
Qed.

(** In a run the key ["screenshot"] is never missing: it holds [None] until
    a path is stored, so the default of [item.get] is never used. *)
Lemma main_records_never_missing fuel render download document start run :
  main fuel render download document start = Some run ->
  Forall (fun r => screenshot r = Null \/ exists p, screenshot r = Path p)
    (records_file run).
Proof.
  unfold main. set (m := build_node_maps document empty_maps None).
  destruct (extract_clickables fuel document (parent_map m) (node_lookup m) [])
    as [clickables|] eqn:Hex; [|done].
  intros [= <-]. simpl.
  apply extract_clickables_null in Hex; [|done].
  assert (Hsorted : Forall (fun r => screenshot r = Null)
                      (sort_clickables clickables (name_map m) start)).
  { unfold sort_clickables. by rewrite py_sorted_perm. }
  pose proof (fetch_phase_records render download (name_map m)
                (sort_clickables clickables (name_map m) start)) as Hf.
  revert Hsorted Hf.
  generalize (sort_clickables clickables (name_map m) start).
  generalize (processed (fetch_phase render download (name_map m)
                (sort_clickables clickables (name_map m) start))).
  intros out inp Hl Hf. induction Hf as [|x' x out' inp' Hx Hf IH]; [done|].
  apply Forall_cons in Hl as [Hx0 Hl].
  constructor; [|by apply IH].
  destruct Hx as [->| ->]; [by left|right; by eexists].
Qed.

Lemma generate_summary_from_null nm pre r post :
  forall idx lines,
    generate_summary_from idx (pre ++ with_screenshot r Null :: post) nm lines
    = Raised TypeError.
Proof.
  induction pre as [|x pre IH]; intros idx lines; simpl.
  - reflexivity.
  - destruct (summary_line idx x nm) as [line|[]]; [apply IH|done].
Qed.

(** When every screenshot was saved the summary has one line per record. *)
Lemma generate_summary_from_paths nm l :
  Forall (fun r => exists p, screenshot r = Path p) l ->
  forall idx lines, exists new,
    generate_summary_from idx l nm lines = Ok (lines ++ new)
    /\ length new = length l.
Proof.
  induction 1 as [|x l [p Hx] _ IH]; intros idx lines; simpl.
  - exists []. by rewrite app_nil_r.
  - unfold summary_line. rewrite Hx. simpl.
    destruct (IH (idx + 1)%Z (lines ++
      [(str_of_int idx ++ ". Click_COORD, " ++ str_of_int (tap_x (tap_position x))
        ++ ", " ++ str_of_int (tap_y (tap_position x)) ++ ", CHECK, "
        ++ basename p)%string])) as (new & Hnew & Hlen).
    eexists (_ :: new). rewrite <- app_assoc in Hnew. split; [exact Hnew|].
    simpl. by rewrite Hlen.
Qed.

(** C1, on the code.  [generate_summary] raises [TypeError] on every list
    that holds a record whose screenshot is still [None]: the fallback
    filename is the default of [item.get], which applies to a missing key
    only, and the key is always there.  So the run on a document with one
    button, when the render service has no URL for its target, dumps the
    records and then ends on the exception, without a summary file. *)
Theorem summary_raises_when_screenshot_missing :
  (forall nm pre r post,
     generate_summary (pre ++ with_screenshot r Null :: post) nm
     = Raised TypeError)
  /\ (exists run,
        main 3 render_no_url download_fails home_document "Splash" = Some run
        /\ List.map screenshot (records_file run) = [Null]
        /\ summary_file run = Raised TypeError)
  /\ (exists run,
        main 3 render_ok download_ok home_document "Splash" = Some run
        /\ summary_file run = Ok ["1. Click_COORD, 20, 20, CHECK, Target.png"]).
Proof.
  split; [|split].
  - intros nm pre r post. apply generate_summary_from_null.
  - eexists. split; [vm_compute; reflexivity|]. split; reflexivity.
  - eexists. split; [vm_compute; reflexivity|]. reflexivity.
Qed.

(** On a document whose ids are pairwise distinct the run comes to its end,
    with as many records as the specification counts. *)
Lemma main_returns_on_distinct_ids render download document start :
  distinct_ids document ->
  exists run,
    main (S (length (nodes document))) render download document start = Some run
    /\ length (records_file run) = expected_count document.
Proof.
  intros Hnd. unfold main.
  set (m := build_node_maps document empty_maps None).
  destruct (extract_clickables_returns (S (length (nodes document)))
              (parent_map m) (node_lookup m) document)
    with (acc := @nil Clickable) as [l Hl].
  { intros n _. apply distinct_ids_walk_returns; [done|lia]. }
  rewrite Hl. eexists. split; [done|]. simpl.
  apply extract_clickables_length in Hl. simpl in Hl. rewrite <- Hl.
  pose proof (fetch_phase_records render download (name_map m)
                (sort_clickables l (name_map m) start)) as Hf.
  apply Forall2_length in Hf. rewrite Hf.
  unfold sort_clickables. apply Permutation_length, py_sorted_perm.
Qed.

(** On the document in which a child repeats its parent's id the run never
    gets past the extraction. *)
Lemma main_hangs_on_cycle fuel render download start :
  main fuel render download cyc_document start = None.
Proof.
  unfold main. set (m := build_node_maps cyc_document empty_maps None).
  assert (Hex : extract_clickables fuel cyc_document (parent_map m)
                  (node_lookup m) [] = None); [|by rewrite Hex].
  rewrite extract_clickables_unfold.
  change (children cyc_document) with [cyc_button].
  cbn [fold_left]. rewrite extract_clickables_unfold.
  change (children cyc_button) with (@nil Node). cbn [fold_left].
  unfold visit. change (absoluteBoundingBox cyc_button)
    with (Some (mkBox 10 10 40 20)).
  cbn [prototypeInteractions transitionNodeID cyc_button present orb negb].
  subst m. by rewrite cyc_walk_never_returns.
Qed.

(** * Further properties *)

(** ** Ancestor Resolver *)

(** X1.  The resolver is idempotent: a screen resolves to itself whatever
    the maps hold, and so does every screen that the walk returns. *)
Theorem find_frame_ancestor_idempotent pm nl fuel current f :
  find_frame_ancestor fuel pm nl current = Some (Some f) ->
  forall pm' nl' fuel',
    find_frame_ancestor fuel' pm' nl' (Some f) = Some (Some f).
Proof.
  intros Hwalk pm' nl' fuel'.
  apply find_frame_ancestor_is_frame in Hwalk as [Hf _].
  by apply find_frame_ancestor_of_frame.
Qed.

Lemma find_frame_ancestor_idempotent_witness :
  let m := build_node_maps home_document empty_maps None in
  find_frame_ancestor 0 ∅ ∅ (Some home_screen) = Some (Some home_screen).
Proof.
  intros m.
  apply (find_frame_ancestor_idempotent (parent_map m) (node_lookup m) 3
           (Some home_button) home_screen).
  vm_compute. reflexivity.
Defined.

Lemma is_frame_truthy a : is_frame a = true -> dict_truthy a = true.
Proof.
  intros Hf. unfold is_frame in Hf. unfold dict_truthy.
  destruct (n_type a); [|done]. simpl. by rewrite !orb_true_r.
Qed.

(** X2.  The screen that the walk returns is the nearest one: it is reached
    after some number of parent steps, and no node met before it is a
    screen; when the walk returns nothing, no node of the chain is a
    screen. *)
Theorem find_frame_ancestor_nearest pm nl :
  forall fuel n r,
    find_frame_ancestor fuel pm nl (Some n) = Some r ->
    match r with
    | Some f =>
        exists k, k <= fuel
          /\ ancestor_at k pm nl n = Some f /\ is_frame f = true
          /\ forall j a, j < k -> ancestor_at j pm nl n = Some a ->
                is_frame a = false
    | None =>
        forall j a, ancestor_at j pm nl n = Some a -> is_frame a = false
    end.
Proof.
  induction fuel as [|fuel IH]; intros n r; simpl;
    destruct (dict_truthy n) eqn:Ht; simpl.
  - destruct (is_frame n) eqn:Hf; [|done]. intros [= <-].
    exists 0. repeat split; try done. intros j a Hj. lia.
  - intros [= <-]. intros j a Ha.
    assert (Hstop : parent_step pm nl n = None).
    { unfold parent_step. unfold dict_truthy in Ht.
      destruct (n_id n); [done|]. done. }
    destruct j as [|j]; simpl in Ha.
    + injection Ha as <-. destruct (is_frame n) eqn:Hf; [|done].
      by rewrite (is_frame_truthy n Hf) in Ht.
    + by rewrite Hstop in Ha.
  - destruct (is_frame n) eqn:Hf.
    + intros [= <-]. exists 0. repeat split; try done; [lia|].
      intros j a Hj. lia.
    + destruct (parent_step pm nl n) as [p|] eqn:Hp.
      * intros Hr. specialize (IH p r Hr). destruct r as [f|].
        -- destruct IH as (k & Hk & Hat & Hff & Hbefore).
           exists (S k). repeat split; [lia| |done|].
           ++ simpl. by rewrite Hp.
           ++ intros j a Hj Ha. destruct j as [|j]; simpl in Ha.
              ** by injection Ha as <-.
              ** rewrite Hp in Ha. apply (Hbefore j a); [lia|done].
        -- intros j a Ha. destruct j as [|j]; simpl in Ha.
           ++ by injection Ha as <-.
           ++ rewrite Hp in Ha. by apply (IH j a).
      * destruct fuel; simpl; intros [= <-]; intros j a Ha;
          (destruct j as [|j]; simpl in Ha;
           [by injection Ha as <-|by rewrite Hp in Ha]).
  - intros [= <-]. intros j a Ha.
    assert (Hstop : parent_step pm nl n = None).
    { unfold parent_step. unfold dict_truthy in Ht.
      destruct (n_id n); [done|]. done. }
    destruct j as [|j]; simpl in Ha.
    + injection Ha as <-. destruct (is_frame n) eqn:Hf; [|done].
      by rewrite (is_frame_truthy n Hf) in Ht.
    + by rewrite Hstop in Ha.
Qed.

Lemma find_frame_ancestor_nearest_witness :
  let m := build_node_maps home_document empty_maps None in
  exists k, k <= 3
    /\ ancestor_at k (parent_map m) (node_lookup m) home_button
       = Some home_screen
    /\ is_frame home_screen = true
    /\ forall j a, j < k ->
          ancestor_at j (parent_map m) (node_lookup m) home_button = Some a ->
          is_frame a = false.
Proof.
  intros m.
  apply (find_frame_ancestor_nearest (parent_map m) (node_lookup m) 3
           home_button (Some home_screen)).
  vm_compute. reflexivity.
Defined.

(** ** Tree Indexer *)

(** The name and node maps do not depend on the parents: they are filled by
    one pass over the nodes in pre-order. *)
Lemma index_node_parent_free node parent m m' :
  name_map m = name_map m' -> node_lookup m = node_lookup m' ->
  name_map (index_node node parent m) = name_map (index_node node None m')
  /\ node_lookup (index_node node parent m)
     = node_lookup (index_node node None m').
Proof.
  intros Hn Hl. unfold index_node. destruct (n_id node) as [k|]; [|done].
  destruct (truthy_str (Some k)); [|done]. simpl. by rewrite Hn, Hl.
Qed.

Lemma build_node_maps_pre_order node :
  forall m m' parent,
    name_map m = name_map m' -> node_lookup m = node_lookup m' ->
    name_map (build_node_maps node m parent)
    = name_map (fold_left (fun a n => index_node n None a) (nodes node) m')
    /\ node_lookup (build_node_maps node m parent)
       = node_lookup
           (fold_left (fun a n => index_node n None a) (nodes node) m').
Proof.
  induction node as [node IH] using Node_forall_ind. intros m m' parent Hn Hl.
  rewrite build_node_maps_unfold.
  destruct (index_node_parent_free node parent m m' Hn Hl) as [Hn' Hl'].
  destruct node as [i nm t b cs ints tr]. simpl nodes. simpl fold_left at 2 4.
  simpl children in *.
  revert Hn' Hl'.
  generalize (index_node (mkNode i nm t b cs ints tr) parent m).
  generalize (index_node (mkNode i nm t b cs ints tr) None m').
  generalize (mkNode i nm t b cs ints tr). clear m m' Hn Hl.
  intros node a' a Hn Hl. revert a a' Hn Hl.
  induction IH as [|c cs Hc ? IHcs]; intros a a' Hn Hl; simpl; [done|].
  rewrite fold_left_app.
  destruct (Hc a a' (Some node) Hn Hl) as [Hn' Hl']. by apply IHcs.
Qed.

Lemma pre_order_other k l :
  Forall (fun n => n_id n <> Some k) l ->
  forall m,
    let m' := fold_left (fun a n => index_node n None a) l m in
    name_map m' !! k = name_map m !! k
    /\ node_lookup m' !! k = node_lookup m !! k.
Proof.
  induction 1 as [|n l Hn _ IH]; intros m; simpl; [done|].
  destruct (IH (index_node n None m)) as [-> ->].
  unfold index_node. destruct (n_id n) as [k'|]; [|done].
  destruct (truthy_str (Some k')); [|done]. simpl.
  rewrite !lookup_insert_ne; [done|congruence..].
Qed.

(** X3.  When several nodes carry the same id, the index keeps the one that
    comes last in pre-order, with its name (["Unnamed"] without one); an id
    that no node carries is a key of none of the three maps. *)
Theorem index_keeps_last_node (document : Node) :
  let m := build_node_maps document empty_maps None in
  (forall l1 n l2 k,
     nodes document = l1 ++ n :: l2 -> n_id n = Some k -> k <> "" ->
     Forall (fun n' => n_id n' <> Some k) l2 ->
     node_lookup m !! k = Some n
     /\ name_map m !! k = Some (get_default (n_name n) "Unnamed"))
  /\ (forall k, Forall (fun n' => n_id n' <> Some k) (nodes document) ->
        name_map m !! k = None /\ parent_map m !! k = None
        /\ node_lookup m !! k = None).
Proof.
  intros m.
  destruct (build_node_maps_pre_order document empty_maps empty_maps None
              eq_refl eq_refl) as [Hname Hlookup].
  fold m in Hname, Hlookup. split.
  - intros l1 n l2 k Hsplit Hid Hk Hl2.
    rewrite Hname, Hlookup, Hsplit, fold_left_app. simpl fold_left.
    destruct (pre_order_other k l2 Hl2
                (index_node n None
                   (fold_left (fun a n0 => index_node n0 None a) l1 empty_maps)))
      as [-> ->].
    unfold index_node. rewrite Hid. destruct k as [|c k]; [done|]. simpl.
    by rewrite !lookup_insert_eq.
  - intros k Hnone.
    destruct (pre_order_other k (nodes document) Hnone empty_maps) as [Hn Hl].
    rewrite <- Hname in Hn. rewrite <- Hlookup in Hl. simpl in Hn, Hl.
    rewrite ?lookup_empty in Hn. rewrite ?lookup_empty in Hl.
    destruct (build_node_maps_aligned document empty_maps None) as [H1 H2];
      [by split|]. fold m in H1, H2.
    repeat split; try done.
    apply not_elem_of_dom. rewrite <- H1. by apply not_elem_of_dom.
Qed.

Lemma index_keeps_last_node_witness :
  let m := build_node_maps cyc_document empty_maps None in
  node_lookup m !! "1:1" = Some cyc_button
  /\ name_map m !! "1:1" = Some (get_default (n_name cyc_button) "Unnamed").
Proof.
  intros m.
  destruct (index_keeps_last_node cyc_document) as [Hlast _].
  apply (Hlast [cyc_document] cyc_button [] "1:1"); try done.
Defined.

Lemma entries_root node parent k :
  n_id node = Some k -> k <> "" ->
  In (k, (parent_id_of parent, node)) (entries node parent).
Proof.
  intros Hid Hk. rewrite entries_unfold, Hid.
  destruct k as [|c k]; [done|]. simpl. by left.
Qed.

Lemma entries_of_node node :
  forall parent n k,
    In n (nodes node) -> n_id n = Some k -> k <> "" ->
    exists pid, In (k, (pid, n)) (entries node parent).
Proof.
  induction node as [node IH] using Node_forall_ind.
  intros parent n k Hn Hid Hk.
  destruct node as [i nm t b cs ints tr]. simpl in Hn.
  destruct Hn as [<-|Hn].
  - eexists. by apply entries_root.
  - apply in_flat_map in Hn as (c & Hc & Hn).
    rewrite Forall_forall in IH. simpl children in IH.
    destruct (IH c (proj2 (list_elem_of_In _ _) Hc) (Some (mkNode i nm t b cs ints tr))
                n k Hn Hid Hk) as [pid Hin].
    exists pid. rewrite entries_unfold. apply in_or_app. right.
    apply in_flat_map. by exists c.
Qed.

Lemma entries_of_child node :
  forall parent p c k,
    In p (nodes node) -> In c (children p) -> n_id c = Some k -> k <> "" ->
    In (k, (parent_id_of (Some p), c)) (entries node parent).
Proof.
  induction node as [node IH] using Node_forall_ind.
  intros parent p c k Hp Hc Hid Hk. rewrite entries_unfold.
  apply in_or_app. right. apply in_flat_map.
  destruct node as [i nm t b cs ints tr]. simpl in Hp. simpl children in *.
  destruct Hp as [<-|Hp].
  - exists c. split; [done|]. by apply entries_root.
  - apply in_flat_map in Hp as (c' & Hc' & Hp). exists c'. split; [done|].
    rewrite Forall_forall in IH.
    by apply (IH c' (proj2 (list_elem_of_In _ _) Hc')).
Qed.

Lemma apply_entries_other k l :
  ~ In k (List.map fst l) ->
  forall m,
    let m' := fold_left apply_entry l m in
    name_map m' !! k = name_map m !! k
    /\ parent_map m' !! k = parent_map m !! k
    /\ node_lookup m' !! k = node_lookup m !! k.
Proof.
  induction l as [|e l IH]; intros Hk m; simpl; [done|].
  simpl in Hk. destruct (IH (fun H => Hk (or_intror H)) (apply_entry m e))
    as (-> & -> & ->).
  unfold apply_entry. simpl.
  rewrite !lookup_insert_ne; [done|intros He; apply Hk; by left..].
Qed.

(** When the ids are pairwise distinct, every insertion is still there at
    the end. *)
Lemma apply_entries_nodup l :
  NoDup (List.map fst l) ->
  forall m k pid n, In (k, (pid, n)) l ->
    let m' := fold_left apply_entry l m in
    name_map m' !! k = Some (get_default (n_name n) "Unnamed")
    /\ parent_map m' !! k = Some pid
    /\ node_lookup m' !! k = Some n.
Proof.
  induction l as [|e l IH]; intros Hnd m k pid n Hin; [done|].
  simpl in Hnd. apply NoDup_cons in Hnd as [Hfresh Hnd].
  destruct Hin as [->|Hin]; simpl.
  - destruct (apply_entries_other k l) with (m := apply_entry m (k, (pid, n)))
      as (-> & -> & ->).
    { intros Hk. apply Hfresh. by apply list_elem_of_In. }
    unfold apply_entry. simpl. by rewrite !lookup_insert_eq.
  - by apply IH.
Qed.

Lemma distinct_ids_lookups document :
  distinct_ids document ->
  let m := build_node_maps document empty_maps None in
  forall k pid n, In (k, (pid, n)) (entries document None) ->
    name_map m !! k = Some (get_default (n_name n) "Unnamed")
    /\ parent_map m !! k = Some pid
    /\ node_lookup m !! k = Some n.
Proof.
  intros Hnd m k pid n Hin. subst m. rewrite build_node_maps_entries.
  by apply (apply_entries_nodup (entries document None) Hnd).
Qed.

Lemma distinct_ids_node document n k :
  distinct_ids document ->
  In n (nodes document) -> n_id n = Some k -> k <> "" ->
  let m := build_node_maps document empty_maps None in
  node_lookup m !! k = Some n
  /\ name_map m !! k = Some (get_default (n_name n) "Unnamed").
Proof.
  intros Hnd Hin Hid Hk m.
  destruct (entries_of_node document None n k Hin Hid Hk) as [pid Hent].
  by apply (distinct_ids_lookups document Hnd) in Hent as (? & _ & ?).
Qed.

Lemma distinct_ids_parent_step document p c k pk :
  distinct_ids document ->
  In p (nodes document) -> In c (children p) ->
  n_id c = Some k -> k <> "" -> n_id p = Some pk -> pk <> "" ->
  let m := build_node_maps document empty_maps None in
  parent_map m !! k = Some (Some pk)
  /\ parent_step (parent_map m) (node_lookup m) c = Some p.
Proof.
  intros Hnd Hp Hc Hid Hk Hpid Hpk m. subst m.
  pose proof (entries_of_child document None p c k Hp Hc Hid Hk) as Hin.
  apply (distinct_ids_lookups document Hnd) in Hin as (_ & Hpm & _).
  assert (Hpp : parent_id_of (Some p) = Some pk).
  { simpl. unfold dict_truthy. rewrite Hpid. done. }
  rewrite Hpp in Hpm. split; [done|].
  unfold parent_step. rewrite Hid, Hpm.
  destruct pk as [|ch pk]; [done|]. simpl.
  by destruct (distinct_ids_node document p (String ch pk) Hnd Hp Hpid Hpk)
    as [-> _].
Qed.

(** X4.  On a document whose ids are pairwise distinct the index is exact:
    the id of a node leads back to that node and to its name, the id of a
    child leads to the id of its parent, and one parent step from a child
    reaches its parent; the root has no parent. *)
Theorem index_exact_on_distinct_ids (document : Node) :
  distinct_ids document ->
  let m := build_node_maps document empty_maps None in
  (forall n k, In n (nodes document) -> n_id n = Some k -> k <> "" ->
     node_lookup m !! k = Some n
     /\ name_map m !! k = Some (get_default (n_name n) "Unnamed"))
  /\ (forall p c k pk,
        In p (nodes document) -> In c (children p) ->
        n_id c = Some k -> k <> "" -> n_id p = Some pk -> pk <> "" ->
        parent_map m !! k = Some (Some pk)
        /\ parent_step (parent_map m) (node_lookup m) c = Some p)
  /\ (forall k, n_id document = Some k -> k <> "" ->
        parent_map m !! k = Some None).
Proof.
  intros Hnd m. split; [|split].
  - intros n k Hin Hid Hk. by apply distinct_ids_node.
  - intros p c k pk Hp Hc Hid Hk Hpid Hpk.
    by apply (distinct_ids_parent_step document p c k pk).
  - intros k Hid Hk.
    by destruct (distinct_ids_lookups document Hnd k None document
                   (entries_root document None k Hid Hk)) as (_ & ? & _).
Qed.

Lemma index_exact_on_distinct_ids_witness :
  let m := build_node_maps home_document empty_maps None in
  (node_lookup m !! "1:2" = Some home_button
   /\ name_map m !! "1:2" = Some (get_default (n_name home_button) "Unnamed"))
  /\ (parent_map m !! "1:2" = Some (Some "1:1")
      /\ parent_step (parent_map m) (node_lookup m) home_button
         = Some home_screen)
  /\ parent_map m !! "0:0" = Some None.
Proof.
  intros m.
  destruct (index_exact_on_distinct_ids home_document
              home_document_distinct_ids) as (Hnode & Hchild & Hroot).
  split; [|split].
  - apply (Hnode home_button "1:2"); [|done..].
    simpl. right. right. by left.
  - apply (Hchild home_screen home_button "1:2" "1:1"); try done.
    + simpl. right. by left.
    + by left.
  - by apply Hroot.
Defined.



(** ** Clickable Extractor *)

Lemma emit_appends node box frame acc :
  emit node box frame acc = acc ++ emit node box frame [].
Proof.
  unfold emit. destruct (prototypeInteractions node) as [ints|].
  - rewrite (append_interactions_records node box frame ints acc),
      (append_interactions_records node box frame ints []).
    reflexivity.
  - destruct (transitionNodeID node); [reflexivity|by rewrite app_nil_r].
Qed.

Lemma visit_appends fuel node pm nl acc :
  visit fuel node pm nl acc = (fun new => acc ++ new) <$> visit fuel node pm nl [].
Proof.
  unfold visit. destruct (negb _ || negb _); simpl; [by rewrite app_nil_r|].
  destruct (absoluteBoundingBox node) as [box|]; simpl; [|by rewrite app_nil_r].
  destruct (find_frame_ancestor fuel pm nl (Some node)) as [frame|]; [|done].
  simpl. by rewrite emit_appends.
Qed.

(** X6.  The extraction only appends: the records already in the list stay
    in front, untouched, and what is appended does not depend on them. *)
Theorem extract_clickables_appends fuel pm nl node :
  forall acc,
    extract_clickables fuel node pm nl acc
    = (fun new => acc ++ new) <$> extract_clickables fuel node pm nl [].
Proof.
  induction node as [node IH] using Node_forall_ind. intros acc.
  rewrite !extract_clickables_unfold.
  assert (Hcs : forall acc,
    fold_left
      (fun acc child =>
         match acc with
         | Some c => extract_clickables fuel child pm nl c
         | None => None
         end) (children node) (Some acc)
    = (fun new => acc ++ new)
      <$> fold_left
            (fun acc child =>
               match acc with
               | Some c => extract_clickables fuel child pm nl c
               | None => None
               end) (children node) (Some [])).
  { clear acc. induction IH as [|c cs Hc ? IHcs]; intros acc; simpl.
    - by rewrite app_nil_r.
    - rewrite (Hc acc).
      destruct (extract_clickables fuel c pm nl []) as [a|]; simpl.
      + rewrite (IHcs (acc ++ a)), (IHcs a).
        destruct (fold_left _ cs (Some [])) as [b|]; simpl; [|done].
        by rewrite app_assoc.
      + by rewrite fold_extract_none. }
  rewrite (Hcs acc).
  destruct (fold_left _ (children node) (Some [])) as [c0|]; simpl; [|done].
  rewrite (visit_appends fuel node pm nl (acc ++ c0)),
    (visit_appends fuel node pm nl c0).
  destruct (visit fuel node pm nl []) as [v|]; simpl; [|done].
  by rewrite app_assoc.
Qed.

(** *** Where the records come from *)

Lemma descriptor_records_stem node box frame ints :
  qualifies node = true -> absoluteBoundingBox node = Some box ->
  forall r, In r (descriptor_records node box frame ints) ->
    exists i, In i ints
      /\ name r = get_default (n_name node) "Unnamed"
      /\ node_id r = n_id node /\ element_y r = box_y box
      /\ screenshot r = Null
      /\ i_target i = Some (navigates_to r)
      /\ navigates_to r <> ""
      /\ interaction_type r = get_default (i_type i) "ON_CLICK".
Proof.
  intros Hq Hbox r Hr. unfold descriptor_records in Hr.
  apply in_flat_map in Hr as (i & Hi & Hr). exists i. split; [done|].
  destruct (i_target i) as [[|c t]|] eqn:Ht; simpl in Hr; try done.
  destruct Hr as [<-|[]]. by repeat split.
Qed.

Lemma visit_stems fuel node pm nl acc l :
  visit fuel node pm nl acc = Some l ->
  exists new, l = acc ++ new /\ Forall (stems_from node) new.
Proof.
  unfold visit. destruct (qualifies node) eqn:Hq.
  - unfold qualifies in Hq. apply andb_true_iff in Hq as [Hl Hb].
    rewrite Hl, Hb. simpl.
    destruct (absoluteBoundingBox node) as [box|] eqn:Hbox; [|done].
    destruct (find_frame_ancestor fuel pm nl (Some node)) as [frame|]; [|done].
    intros [= <-]. rewrite emit_appends. eexists. split; [done|].
    assert (Hq : qualifies node = true)
      by (unfold qualifies; by rewrite Hl, Hbox).
    apply Forall_forall. intros r Hr%list_elem_of_In.
    exists box. unfold emit in Hr.
    destruct (prototypeInteractions node) as [ints|] eqn:Hints.
    + rewrite append_interactions_records in Hr. simpl in Hr.
      destruct (descriptor_records_stem node box frame ints Hq Hbox r Hr)
        as (i & Hi & Hn & Hid & Hy & Hs & Ht & Hne & Hty).
      repeat split; try done. by exists i.
    + destruct (transitionNodeID node) as [t|] eqn:Htr; [|done].
      destruct Hr as [<-|[]]. by repeat split.
  - unfold qualifies in Hq. apply andb_false_iff in Hq.
    assert (Hg : negb (present (prototypeInteractions node)
                       || present (transitionNodeID node))
                 || negb (present (absoluteBoundingBox node)) = true).
    { destruct Hq as [->| ->]; [done|]. by rewrite orb_true_r. }
    rewrite Hg. intros [= <-]. exists []. by rewrite app_nil_r.
Qed.

Lemma extract_clickables_forall (P : Clickable -> Prop) fuel pm nl node :
  (forall n r, In n (nodes node) -> stems_from n r -> P r) ->
  forall acc l,
    Forall P acc -> extract_clickables fuel node pm nl acc = Some l ->
    Forall P l.
Proof.
  induction node as [node IH] using Node_forall_ind. intros HP acc l Hacc.
  rewrite extract_clickables_unfold.
  assert (Hcs : forall acc c,
    Forall P acc ->
    fold_left
      (fun acc child =>
         match acc with
         | Some c => extract_clickables fuel child pm nl c
         | None => None
         end) (children node) (Some acc) = Some c ->
    Forall P c).
  { assert (Hsub : forall n r, In n (flat_map nodes (children node)) ->
              stems_from n r -> P r).
    { intros n r Hn. apply HP. destruct node. simpl. by right. }
    clear acc l Hacc HP.
    induction IH as [|c cs Hc ? IHcs]; intros acc r Hacc; simpl.
    - by intros [= <-].
    - destruct (extract_clickables fuel c pm nl acc) as [a|] eqn:Ha.
      + apply IHcs.
        * intros n r' Hn. apply Hsub. simpl. apply in_or_app. by right.
        * apply (Hc (fun n r' Hn => Hsub n r' (in_or_app _ _ _ (or_introl Hn)))
                   acc a Hacc Ha).
      + by rewrite fold_extract_none. }
  destruct (fold_left _ (children node) (Some acc)) as [c|] eqn:Hfold; [|done].
  intros Hv. apply visit_stems in Hv as (new & -> & Hnew).
  apply Forall_app. split; [by apply (Hcs acc)|].
  eapply Forall_impl; [exact Hnew|]. intros r Hr. apply (HP node); [|done].
  destruct node. simpl. by left.
Qed.

(** X7.  Every record that the extraction returns was made for a qualifying
    node of the document: it carries the name (["Unnamed"] without one), the
    id and the height of that node, no screenshot, and the target and type
    of one of its descriptors (["ON_CLICK"] without a type; the target is
    not empty) or, for a node without descriptors, its legacy target with
    type ["ON_CLICK"]. *)
Theorem extracted_records_stem_from_nodes fuel pm nl document l :
  extract_clickables fuel document pm nl [] = Some l ->
  Forall (fun r => exists n, In n (nodes document) /\ stems_from n r) l.
Proof.
  apply (extract_clickables_forall
           (fun r => exists n, In n (nodes document) /\ stems_from n r));
    [|done].
  intros n r Hn Hr. by exists n.
Qed.

Lemma extracted_records_stem_from_nodes_witness :
  let m := build_node_maps home_document empty_maps None in
  Forall (fun r => exists n, In n (nodes home_document) /\ stems_from n r)
    [make_clickable home_button (mkBox 110 210 20 20) (Some home_screen)
       "2:1" "ON_CLICK"].
Proof.
  intros m.
  apply (extracted_records_stem_from_nodes 3 (parent_map m) (node_lookup m)
           home_document).
  vm_compute. reflexivity.
Defined.

Lemma extract_clickables_nothing fuel pm nl node :
  Forall (fun n => qualifies n = false) (nodes node) ->
  forall acc, extract_clickables fuel node pm nl acc = Some acc.
Proof.
  induction node as [node IH] using Node_forall_ind. intros Hq acc.
  rewrite extract_clickables_unfold.
  assert (Hown : qualifies node = false).
  { rewrite Forall_forall in Hq. apply Hq, list_elem_of_In.
    destruct node. simpl. by left. }
  assert (Hcs : Forall (fun n => qualifies n = false)
                  (flat_map nodes (children node))).
  { destruct node. simpl in *. by apply Forall_cons in Hq as [_ ?]. }
  assert (Hfold : fold_left
      (fun acc child =>
         match acc with
         | Some c => extract_clickables fuel child pm nl c
         | None => None
         end) (children node) (Some acc) = Some acc).
  { clear Hq Hown. revert Hcs.
    induction IH as [|c cs Hc ? IHcs]; intros Hcs; simpl; [done|].
    simpl in Hcs. apply Forall_app in Hcs as [H1 H2].
    rewrite (Hc H1 acc). by apply IHcs. }
  rewrite Hfold. unfold visit. unfold qualifies in Hown.
  apply andb_false_iff in Hown.
  assert (Hg : negb (present (prototypeInteractions node)
                     || present (transitionNodeID node))
               || negb (present (absoluteBoundingBox node)) = true).
  { destruct Hown as [->| ->]; [done|]. by rewrite orb_true_r. }
  by rewrite Hg.
Qed.

(** X8.  A document without any qualifying node gives a run without
    records, without any call to the network and with an empty summary,
    whatever the services do and even when its parent links form a cycle (no
    ancestor walk is started). *)
Theorem main_without_clickables fuel render download document start :
  Forall (fun n => qualifies n = false) (nodes document) ->
  main fuel render download document start = Some (mkRun [] (Ok []) [] ∅).
Proof.
  intros Hq. unfold main.
  by rewrite (extract_clickables_nothing fuel _ _ document Hq []).
Qed.

Lemma main_without_clickables_witness :
  main 0 render_flaky download_fails plain_document "Splash"
  = Some (mkRun [] (Ok []) [] ∅).
Proof.
  apply (main_without_clickables 0 render_flaky download_fails plain_document).
  repeat constructor.
Defined.

(** ** Ordering Engine *)

Section PySortedFirst.
Context {A K : Type} (key : A -> K) (ltb : K -> K -> bool).
Hypothesis ltb_negtrans :
  forall a b c, ltb a b = false -> ltb b c = false -> ltb a c = false.
Variable kmin : K.

(** In a sorted list whose keys are never below [kmin], the elements whose
    key compares equal to [kmin] stand in front. *)
Lemma sorted_least_first l :
  StronglySorted (fun x y => ltb (key y) (key x) = false) l ->
  Forall (fun x => ltb (key x) kmin = false) l ->
  l = List.filter (fun x => key_equiv ltb (key x) kmin) l
      ++ List.filter (fun x => negb (key_equiv ltb (key x) kmin)) l.
Proof.
  induction 1 as [|x l Hl IH Hx]; intros Hmin; [done|].
  apply Forall_cons in Hmin as [Hxmin Hmin]. specialize (IH Hmin). simpl.
  destruct (key_equiv ltb (key x) kmin) eqn:Hxe; simpl; [by rewrite <- IH|].
  assert (Hnone : Forall (fun y => key_equiv ltb (key y) kmin = false) l).
  { rewrite Forall_forall in Hx, Hmin. apply Forall_forall. intros y Hy.
    unfold key_equiv in *. rewrite Hxmin in Hxe. simpl in Hxe.
    apply negb_false_iff in Hxe.
    destruct (ltb kmin (key y)) eqn:Hky; [by rewrite andb_false_r|].
    by rewrite (ltb_negtrans _ _ _ Hky (Hx y Hy)) in Hxe. }
  assert (H1 : List.filter (fun y => key_equiv ltb (key y) kmin) l = []).
  { clear -Hnone. induction Hnone as [|y l Hy ? IHn]; simpl; [done|].
    by rewrite Hy. }
  assert (H2 : List.filter (fun y => negb (key_equiv ltb (key y) kmin)) l = l).
  { clear -Hnone. induction Hnone as [|y l Hy ? IHn]; simpl; [done|].
    rewrite Hy. simpl. by rewrite IHn. }
  by rewrite H1, H2.
Qed.

End PySortedFirst.

Lemma sort_key_not_below_start nm start r :
  key_ltb (sort_key nm start r) (0%Z, 0%Q) = false.
Proof.
  apply key_ltb_false. unfold sort_key.
  destruct (String.eqb (from_screen r) start).
  - right. simpl. split; [done|lra].
  - destruct (target_order_preference _); left; simpl; lia.
Qed.

Lemma sort_key_equiv_start nm start r :
  key_equiv key_ltb (sort_key nm start r) (0%Z, 0%Q)
  = String.eqb (from_screen r) start.
Proof.
  unfold key_equiv. rewrite sort_key_not_below_start. simpl. unfold sort_key.
  destruct (String.eqb (from_screen r) start); [done|].
  destruct (target_order_preference _); done.
Qed.

(** X9.  The records that leave the start screen come first, in the order
    in which they came in, and no record after them leaves the start
    screen. *)
Theorem sort_clickables_start_first
    (nm : gmap string string) (start : string) (l : list Clickable) :
  exists rest,
    sort_clickables l nm start
    = List.filter (fun r => String.eqb (from_screen r) start) l ++ rest
    /\ Forall (fun r => from_screen r <> start) rest
    /\ Permutation rest
         (List.filter (fun r => negb (String.eqb (from_screen r) start)) l).
Proof.
  exists (List.filter (fun r => negb (String.eqb (from_screen r) start))
            (sort_clickables l nm start)).
  split; [|split].
  - etrans.
    { apply (sorted_least_first (sort_key nm start) key_ltb key_ltb_negtrans
               (0%Z, 0%Q)).
      - apply (py_sorted_sorted _ key_ltb key_ltb_irrefl key_ltb_trans
                 key_ltb_negtrans).
      - apply Forall_forall. intros r _. apply sort_key_not_below_start. }
    f_equal.
    + unfold sort_clickables.
      rewrite (py_sorted_stable _ key_ltb key_ltb_negtrans).
      apply List.filter_ext. intros r. apply sort_key_equiv_start.
    + apply List.filter_ext. intros r. by rewrite sort_key_equiv_start.
  - apply Forall_forall. intros r Hr%list_elem_of_In.
    apply filter_In in Hr as [_ Hr]. apply negb_true_iff in Hr.
    by apply String.eqb_neq.
  - unfold sort_clickables.
    assert (Hperm : Permutation (py_sorted (sort_key nm start) key_ltb l) l)
      by apply py_sorted_perm.
    revert Hperm. generalize (py_sorted (sort_key nm start) key_ltb l).
    intros s Hperm.
    induction Hperm as [|x s s' Hp IHp|x y s|s s' s'' Hp1 IH1 Hp2 IH2]; simpl.
    + done.
    + destruct (negb _); [by constructor|done].
    + destruct (negb _), (negb _); try done. apply perm_swap.
    + by etrans.
Qed.

Lemma StronglySorted_suffix {A : Type} (R : A -> A -> Prop) l1 l2 :
  StronglySorted R (l1 ++ l2) -> StronglySorted R l2.
Proof.
  induction l1 as [|x l1 IH]; simpl; [done|].
  intros Hs. by apply StronglySorted_inv in Hs as [Hs _]; apply IH.
Qed.

(** X10.  In the output, a record never stands before one of a lower tier,
    and of two records of the last tier (not from the start screen, not to
    a preferred target) the one that stands first is not lower on the
    screen. *)
Theorem sort_clickables_order
    (nm : gmap string string) (start : string) (l l1 l2 l3 : list Clickable)
    (a b : Clickable) :
  sort_clickables l nm start = l1 ++ a :: l2 ++ b :: l3 ->
  (fst (sort_key nm start a) <= fst (sort_key nm start b))%Z
  /\ (fst (sort_key nm start a) = 2%Z -> fst (sort_key nm start b) = 2%Z ->
      (element_y a <= element_y b)%Q).
Proof.
  intros Hsplit.
  pose proof (py_sorted_sorted (sort_key nm start) key_ltb key_ltb_irrefl
                key_ltb_trans key_ltb_negtrans l) as Hs.
  fold (sort_clickables l nm start) in Hs. rewrite Hsplit in Hs.
  apply StronglySorted_suffix in Hs.
  apply StronglySorted_inv in Hs as [_ Hs].
  rewrite Forall_forall in Hs.
  assert (Hab : key_ltb (sort_key nm start b) (sort_key nm start a) = false).
  { apply Hs, list_elem_of_In, in_or_app. right. by left. }
  apply key_ltb_false in Hab as [Hab|[Hab Hq]]; (split; [lia|]);
    intros Ha Hb; [lia|].
  assert (Hy : forall r, fst (sort_key nm start r) = 2%Z ->
            snd (sort_key nm start r) = element_y r).
  { intros r. unfold sort_key.
    destruct (String.eqb (from_screen r) start); [done|].
    by destruct (target_order_preference _). }
  pose proof (Hy a Ha) as Hya. pose proof (Hy b Hb) as Hyb.
  by rewrite <- Hya, <- Hyb.
Qed.

Lemma sort_clickables_order_witness :
  (fst (sort_key tier_names "Splash" tier_E)
   <= fst (sort_key tier_names "Splash" tier_D))%Z
  /\ (fst (sort_key tier_names "Splash" tier_E) = 2%Z ->
      fst (sort_key tier_names "Splash" tier_D) = 2%Z ->
      (element_y tier_E <= element_y tier_D)%Q).
Proof.
  apply (sort_clickables_order tier_names "Splash"
           [tier_E; tier_D; tier_C; tier_B; tier_A]
           [tier_A; tier_B; tier_C] [] []).
  vm_compute. reflexivity.
Defined.

(** ** Tap positions *)





(** ** Screenshot Cache and Fetch Orchestrator *)

Section FetchMore.
Variable render : list Event -> string -> RenderResult.
Variable download : list Event -> string -> string -> option string.
Variable name_map : gmap string string.

Lemma fetch_item_paths_written st item :
  screenshot item = Null -> paths_written st ->
  paths_written (fetch_item render download name_map st item).
Proof.
  intros Hnull [Hcache Hrec]. unfold fetch_item.
  assert (Hkeep : forall tr,
            paths_written (mkFetchState (downloaded st) tr (files st)
                             (processed st ++ [item]))).
  { intros tr. split; [done|]. simpl. apply Forall_app. split; [done|].
    repeat constructor. intros p Hp. by rewrite Hnull in Hp. }
  destruct (downloaded st !! navigates_to item) as [p|] eqn:Hd.
  { split; [done|]. simpl. apply Forall_app. split; [done|].
    repeat constructor. intros q [= <-]. by apply (Hcache _ _ Hd). }
  destruct (render (trace st) (navigates_to item)) as [|[u|]]; simpl; try done.
  destruct u as [|c u]; simpl; try done.
  destruct (download _ _ _) as [data|]; simpl; try done.
  assert (Hmono : forall q, is_Some (files st !! q) ->
            is_Some (<[file_path_of name_map (navigates_to item) := data]>
                       (files st) !! q)).
  { intros q Hq. rewrite lookup_insert. by case_decide. }
  split; simpl.
  - intros t p. rewrite lookup_insert. case_decide as Ht.
    + intros [= <-]. by rewrite lookup_insert_eq.
    + intros Hp. apply Hmono. by apply (Hcache t).
  - apply Forall_app. split.
    + eapply Forall_impl; [exact Hrec|]. intros r Hr p Hp. by apply Hmono, Hr.
    + repeat constructor. intros q [= <-]. by rewrite lookup_insert_eq.
Qed.

Lemma fetch_from_paths_written l :
  Forall (fun x => screenshot x = Null) l ->
  forall st, paths_written st ->
    paths_written (fetch_from render download name_map st l).
Proof.
  induction 1 as [|item l Hitem _ IH]; intros st Hst; [done|].
  rewrite fetch_from_cons. by apply IH, fetch_item_paths_written.
Qed.

(** One turn makes at most one render request, for the target of its
    record, and no download that a render request did not precede. *)
Lemma fetch_item_calls t st item :
  let st' := fetch_item render download name_map st item in
  render_calls t (trace st')
  <= render_calls t (trace st)
     + (if String.eqb (navigates_to item) t then 1 else 0)
  /\ (download_calls t (trace st) <= render_calls t (trace st) ->
      download_calls t (trace st') <= render_calls t (trace st')).
Proof.
  unfold fetch_item, render_calls, download_calls.
  destruct (downloaded st !! navigates_to item) as [p|]; simpl; [lia|].
  destruct (render (trace st) (navigates_to item)) as [|[u|]]; simpl;
    try (destruct (String.eqb (navigates_to item) t); simpl; lia).
  destruct u as [|c u]; simpl;
    try (destruct (String.eqb (navigates_to item) t); simpl; lia).
  destruct (download _ _ _); simpl;
    destruct (String.eqb (navigates_to item) t); simpl; lia.
Qed.

Lemma fetch_from_calls t l :
  forall st,
    let st' := fetch_from render download name_map st l in
    render_calls t (trace st')
    <= render_calls t (trace st)
       + length (List.filter (fun x => String.eqb (navigates_to x) t) l)
    /\ (download_calls t (trace st) <= render_calls t (trace st) ->
        download_calls t (trace st') <= render_calls t (trace st')).
Proof.
  induction l as [|item l IH]; intros st; cbv zeta in *; simpl; [lia|].
  destruct (fetch_item_calls t st item) as [Hr Hd].
  destruct (IH (fetch_item render download name_map st item)) as [Hr' Hd'].
  split; [|by auto].
  destruct (String.eqb (navigates_to item) t); simpl in *; lia.
Qed.

Lemma fetch_from_reliable l :
  reliable render download ->
  forall st, exists l',
    processed (fetch_from render download name_map st l) = processed st ++ l'
    /\ length l' = length l
    /\ Forall (fun r => exists p, screenshot r = Path p) l'.
Proof.
  intros [Hrender Hdownload].
  induction l as [|item l IH]; intros st.
  - exists []. by rewrite app_nil_r.
  - rewrite fetch_from_cons.
    assert (Hstep : exists p,
      processed (fetch_item render download name_map st item)
      = processed st ++ [with_screenshot item (Path p)]).
    { unfold fetch_item.
      destruct (downloaded st !! navigates_to item) as [p|]; [by eexists|].
      destruct (Hrender (trace st) (navigates_to item)) as (u & Hu & ->).
      destruct u as [|c u]; [done|]. simpl.
      destruct (Hdownload (EvRender (navigates_to item) :: trace st)
                  (String c u) (file_path_of name_map (navigates_to item)))
        as [data ->].
      by eexists. }
    destruct Hstep as [p Hp].
    destruct (IH (fetch_item render download name_map st item))
      as (l' & -> & Hlen & Hl').
    exists (with_screenshot item (Path p) :: l'). rewrite Hp.
    split; [by rewrite <- app_assoc|]. split; [simpl; by rewrite Hlen|].
    constructor; [by eexists|done].
Qed.

End FetchMore.

(** X12.  After the fetch phase every path in the cache and every path
    stored on a record names a file that was written. *)
Theorem saved_screenshots_exist render download nm ordered :
  Forall (fun x => screenshot x = Null) ordered ->
  let st := fetch_phase render download nm ordered in
  (forall t p, downloaded st !! t = Some p -> is_Some (files st !! p))
  /\ Forall (fun r => forall p, screenshot r = Path p -> is_Some (files st !! p))
       (processed st).
Proof.
  intros Hnull st.
  apply (fetch_from_paths_written render download nm ordered Hnull fetch_init).
  split; [by intros t p Hp|constructor].
Qed.

Lemma saved_screenshots_exist_witness :
  let st := fetch_phase render_flaky download_ok ∅ [dup_first; dup_second] in
  (forall t p, downloaded st !! t = Some p -> is_Some (files st !! p))
  /\ Forall (fun r => forall p, screenshot r = Path p -> is_Some (files st !! p))
       (processed st).
Proof.
  apply (saved_screenshots_exist render_flaky download_ok ∅
           [dup_first; dup_second]).
  by repeat constructor.
Defined.

(** X13.  For every target the fetch phase makes at most as many render
    requests as there are records that lead to it (none for a target to
    which no record leads), and never more downloads than render
    requests. *)
Theorem fetch_calls_bounded render download nm ordered t :
  let st := fetch_phase render download nm ordered in
  render_calls t (trace st)
  <= length (List.filter (fun x => String.eqb (navigates_to x) t) ordered)
  /\ download_calls t (trace st) <= render_calls t (trace st).
Proof.
  intros st.
  destruct (fetch_from_calls render download nm t ordered fetch_init)
    as [Hr Hd].
  fold (fetch_phase render download nm ordered) in Hr, Hd. fold st in Hr, Hd.
  split; [exact Hr|]. apply Hd. unfold download_calls, render_calls. simpl. lia.
Qed.

(** ** Summary *)

Lemma generate_summary_from_lines nm l :
  Forall (fun r => screenshot r <> Null) l ->
  forall idx acc, exists lines,
    generate_summary_from idx l nm acc = Ok (acc ++ lines)
    /\ length lines = length l
    /\ forall i r, l !! i = Some r ->
         exists line, lines !! i = Some line
           /\ summary_line (idx + Z.of_nat i) r nm = Ok line.
Proof.
  induction 1 as [|x l Hx _ IH]; intros idx acc.
  - exists []. split; [by rewrite app_nil_r|]. split; [done|].
    intros i r Hi. by rewrite lookup_nil in Hi.
  - simpl generate_summary_from.
    assert (Hline : exists line, summary_line idx x nm = Ok line).
    { unfold summary_line. destruct (screenshot x); simpl; by eauto. }
    destruct Hline as [line Hline]. rewrite Hline.
    destruct (IH (idx + 1)%Z (acc ++ [line])) as (lines & -> & Hlen & Hlines).
    exists (line :: lines). split; [by rewrite <- app_assoc|].
    split; [simpl; by rewrite Hlen|].
    intros [|i] r Hi; simpl in Hi.
    + injection Hi as <-. exists line. split; [done|].
      by rewrite Z.add_0_r.
    + destruct (Hlines i r Hi) as (ln & Hln & Hsum).
      exists ln. split; [done|]. rewrite <- Hsum. f_equal. lia.
Qed.

(** X14.  When no record has a screenshot that is [None], the summary has
    one line per record, in the order of the records, and the line of the
    record at place [i] (from 0) is the one numbered [i + 1]. *)
Theorem generate_summary_numbered nm l :
  Forall (fun r => screenshot r <> Null) l ->
  exists lines,
    generate_summary l nm = Ok lines
    /\ length lines = length l
    /\ forall i r, l !! i = Some r ->
         exists line, lines !! i = Some line
           /\ summary_line (Z.of_nat (S i)) r nm = Ok line.
Proof.
  intros Hl.
  destruct (generate_summary_from_lines nm l Hl 1%Z [])
    as (lines & Hgen & Hlen & Hlines).
  exists lines. split; [exact Hgen|]. split; [done|].
  intros i r Hi. destruct (Hlines i r Hi) as (line & Hline & Hsum).
  exists line. split; [done|]. rewrite <- Hsum. f_equal. lia.
Qed.

Lemma generate_summary_numbered_witness :
  exists lines,
    generate_summary [with_screenshot tier_A (Path "screenshots/A.png");
                      with_screenshot tier_B Missing] tier_names = Ok lines
    /\ length lines = 2
    /\ forall i r,
         [with_screenshot tier_A (Path "screenshots/A.png");
          with_screenshot tier_B Missing] !! i = Some r ->
         exists line, lines !! i = Some line
           /\ summary_line (Z.of_nat (S i)) r tier_names = Ok line.
Proof.
  apply (generate_summary_numbered tier_names
           [with_screenshot tier_A (Path "screenshots/A.png");
            with_screenshot tier_B Missing]).
  by repeat constructor.
Defined.

Lemma string_app_cons a s t :
  (String a s ++ t)%string = String a (s ++ t)%string.
Proof. reflexivity. Qed.

Lemma string_app_nil_r s : (s ++ "")%string = s.
Proof.
  induction s as [|a s IH]; [reflexivity|]. by rewrite string_app_cons, IH.
Qed.

Lemma string_app_snoc s c t :
  ((s ++ String c "") ++ t)%string = (s ++ String c t)%string.
Proof.
  induction s as [|a s IH]; [reflexivity|].
  by rewrite !string_app_cons, IH.
Qed.

Lemma basename_from_no_slash p :
  has_slash p = false -> forall acc, basename_from acc p = (acc ++ p)%string.
Proof.
  induction p as [|c p IH]; simpl; intros Hp acc.
  - by rewrite string_app_nil_r.
  - apply orb_false_iff in Hp as [Hc Hp].
    by rewrite Hc, (IH Hp), string_app_snoc.
Qed.

Lemma basename_from_after_slash f d :
  has_slash f = false ->
  forall acc, basename_from acc (d ++ String "/" f)%string = f.
Proof.
  intros Hf. induction d as [|c d IH]; intros acc.
  - change ("" ++ String "/" f)%string with (String "/" f). simpl.
    by rewrite (basename_from_no_slash f Hf).
  - rewrite string_app_cons. simpl. destruct (Ascii.eqb c "/"); apply IH.
Qed.

Lemma has_slash_app s1 s2 :
  has_slash (s1 ++ s2)%string = has_slash s1 || has_slash s2.
Proof.
  induction s1 as [|c s1 IH]; [reflexivity|].
  rewrite string_app_cons. simpl. by rewrite IH, orb_assoc.
Qed.

(** X15.  When the sanitized name of the target holds no slash, the summary
    lists a saved screenshot under the sanitized name followed by [.png],
    which is also the name that it lists for a record without the key. *)
Theorem summary_lists_sanitized_name nm idx item :
  let t := navigates_to item in
  has_slash (screen_name_of nm t) = false ->
  basename (file_path_of nm t) = (screen_name_of nm t ++ ".png")%string
  /\ summary_line idx (with_screenshot item (Path (file_path_of nm t))) nm
     = summary_line idx (with_screenshot item Missing) nm.
Proof.
  intros t Hs.
  assert (Hb : basename (file_path_of nm t)
               = (screen_name_of nm t ++ ".png")%string).
  { unfold basename, file_path_of.
    apply (basename_from_after_slash _ "screenshots").
    by rewrite has_slash_app, Hs. }
  assert (Hf : basename (screen_name_of nm t ++ ".png")
               = (screen_name_of nm t ++ ".png")%string).
  { unfold basename. rewrite basename_from_no_slash; [done|].
    by rewrite has_slash_app, Hs. }
  split; [exact Hb|].
  unfold summary_line. simpl. fold t. by rewrite Hb, Hf.
Qed.

Lemma summary_lists_sanitized_name_witness :
  basename (file_path_of ∅ (navigates_to anon_first))
  = (screen_name_of ∅ (navigates_to anon_first) ++ ".png")%string
  /\ summary_line 1 (with_screenshot anon_first
                       (Path (file_path_of ∅ (navigates_to anon_first)))) ∅
     = summary_line 1 (with_screenshot anon_first Missing) ∅.
Proof.
  apply (summary_lists_sanitized_name ∅ 1 anon_first). reflexivity.
Defined.

(** ** The run *)

Lemma fetched_from_sort_key nm start x' x :
  fetched_from nm x' x -> sort_key nm start x' = sort_key nm start x.
Proof. by intros [->| ->]. Qed.

Lemma fetched_from_reset nm x' x :
  screenshot x = Null -> fetched_from nm x' x -> with_screenshot x' Null = x.
Proof. intros Hx [->| ->]; destruct x; simpl in *; by subst. Qed.

Lemma fetched_from_reset_all nm l' l :
  Forall2 (fetched_from nm) l' l ->
  Forall (fun r => screenshot r = Null) l ->
  List.map (fun r => with_screenshot r Null) l' = l.
Proof.
  induction 1 as [|x' x l' l Hx Hl IH]; intros Hs; [done|].
  apply Forall_cons in Hs as [Hx0 Hs]. cbn [List.map].
  by rewrite (fetched_from_reset nm x' x Hx0 Hx), (IH Hs).
Qed.

Lemma sorted_through_fetch nm start l' l :
  Forall2 (fetched_from nm) l' l ->
  StronglySorted
    (fun a b => key_ltb (sort_key nm start b) (sort_key nm start a) = false) l ->
  StronglySorted
    (fun a b => key_ltb (sort_key nm start b) (sort_key nm start a) = false) l'.
Proof.
  induction 1 as [|x' x l' l Hx Hl IH]; intros Hs; [constructor|].
  apply StronglySorted_inv in Hs as [Hs Hhead].
  constructor; [by apply IH|].
  rewrite (fetched_from_sort_key nm start x' x Hx).
  clear IH Hs. induction Hl as [|y' y l' l Hy Hl IHl]; [constructor|].
  apply Forall_cons in Hhead as [Hy0 Hhead].
  constructor; [|by apply IHl].
  by rewrite (fetched_from_sort_key nm start y' y Hy).
Qed.

(** X16.  The records that a run writes are the extracted records, each one
    once, in the order of the sort keys; the fetch phase changed nothing
    but their screenshot, which holds no path or the path computed from the
    name of the target. *)
Theorem main_writes_sorted_extraction fuel render download document start run :
  main fuel render download document start = Some run ->
  let m := build_node_maps document empty_maps None in
  exists clickables,
    extract_clickables fuel document (parent_map m) (node_lookup m) []
    = Some clickables
    /\ Forall2 (fetched_from (name_map m)) (records_file run)
         (sort_clickables clickables (name_map m) start)
    /\ Permutation
         (List.map (fun r => with_screenshot r Null) (records_file run))
         clickables
    /\ StronglySorted
         (fun a b => key_ltb (sort_key (name_map m) start b)
                       (sort_key (name_map m) start a) = false)
         (records_file run).
Proof.
  unfold main. set (m := build_node_maps document empty_maps None).
  destruct (extract_clickables fuel document (parent_map m) (node_lookup m) [])
    as [clickables|] eqn:Hex; [|done].
  intros [= <-]. simpl. exists clickables. split; [done|].
  pose proof (fetch_phase_records render download (name_map m)
                (sort_clickables clickables (name_map m) start)) as Hf.
  split; [exact Hf|]. split.
  - apply extract_clickables_null in Hex; [|done].
    assert (Hsorted : Forall (fun r => screenshot r = Null)
                        (sort_clickables clickables (name_map m) start)).
    { unfold sort_clickables. by rewrite py_sorted_perm. }
    rewrite (fetched_from_reset_all (name_map m) _ _ Hf Hsorted).
    apply py_sorted_perm.
  - apply (sorted_through_fetch (name_map m) start _ _ Hf).
    apply (py_sorted_sorted _ key_ltb key_ltb_irrefl key_ltb_trans
             key_ltb_negtrans).
Qed.

Lemma main_writes_sorted_extraction_witness :
  let m := build_node_maps home_document empty_maps None in
  exists clickables,
    extract_clickables 3 home_document (parent_map m) (node_lookup m) []
    = Some clickables
    /\ Forall2 (fetched_from (name_map m))
         [with_screenshot
            (make_clickable home_button (mkBox 110 210 20 20)
               (Some home_screen) "2:1" "ON_CLICK")
            (Path "screenshots/Target.png")]
         (sort_clickables clickables (name_map m) "Splash")
    /\ Permutation
         (List.map (fun r => with_screenshot r Null)
            [with_screenshot
               (make_clickable home_button (mkBox 110 210 20 20)
                  (Some home_screen) "2:1" "ON_CLICK")
               (Path "screenshots/Target.png")])
         clickables
    /\ StronglySorted
         (fun a b => key_ltb (sort_key (name_map m) "Splash" b)
                       (sort_key (name_map m) "Splash" a) = false)
         [with_screenshot
            (make_clickable home_button (mkBox 110 210 20 20)
               (Some home_screen) "2:1" "ON_CLICK")
            (Path "screenshots/Target.png")].
Proof.
  intros m.
  apply (main_writes_sorted_extraction 3 render_ok download_ok home_document
           "Splash"
           (mkRun
              [with_screenshot
                 (make_clickable home_button (mkBox 110 210 20 20)
                    (Some home_screen) "2:1" "ON_CLICK")
                 (Path "screenshots/Target.png")]
              (Ok ["1. Click_COORD, 20, 20, CHECK, Target.png"])
              [EvDownload "2:1" "https://img/2:1" "screenshots/Target.png";
               EvRender "2:1"]
              (<["screenshots/Target.png" := "bytes of https://img/2:1"]> ∅))).
  vm_compute. reflexivity.
Defined.

Lemma render_ok_download_ok_reliable : reliable render_ok download_ok.
Proof.
  split.
  - intros tr t. exists ("https://img/" ++ t)%string. split; [|done].
    by rewrite string_app_cons.
  - intros tr u p. by eexists.
Qed.

(** X17.  With services that always answer, the run on a document whose ids
    are pairwise distinct comes to its end with both artifacts: every record
    has a saved screenshot and the summary has one line per record, as many
    as the extraction counts. *)
Theorem main_completes_with_reliable_services
    render download document start :
  reliable render download -> distinct_ids document ->
  exists run lines,
    main (S (length (nodes document))) render download document start
    = Some run
    /\ summary_file run = Ok lines
    /\ length lines = expected_count document
    /\ length (records_file run) = expected_count document
    /\ Forall (fun r => exists p, screenshot r = Path p) (records_file run).
Proof.
  intros Hrel Hnd. unfold main.
  set (m := build_node_maps document empty_maps None).
  destruct (extract_clickables_returns (S (length (nodes document)))
              (parent_map m) (node_lookup m) document)
    with (acc := @nil Clickable) as [l Hl].
  { intros n _. apply distinct_ids_walk_returns; [done|lia]. }
  rewrite Hl. apply extract_clickables_length in Hl. simpl in Hl.
  destruct (fetch_from_reliable render download (name_map m)
              (sort_clickables l (name_map m) start) Hrel fetch_init)
    as (l' & Hp & Hlen & Hpaths).
  fold (fetch_phase render download (name_map m)
          (sort_clickables l (name_map m) start)) in Hp.
  simpl in Hp.
  destruct (generate_summary_from_paths (name_map m) l' Hpaths 1%Z [])
    as (lines & Hsum & Hlines).
  assert (Hcount : length l' = expected_count document).
  { rewrite Hlen, <- Hl. unfold sort_clickables.
    apply Permutation_length, py_sorted_perm. }
  eexists. exists lines. split; [done|]. simpl. rewrite Hp.
  repeat split; try done. by rewrite Hlines.
Qed.

Lemma main_completes_with_reliable_services_witness :
  exists run lines,
    main (S (length (nodes home_document))) render_ok download_ok
      home_document "Splash" = Some run
    /\ summary_file run = Ok lines
    /\ length lines = expected_count home_document
    /\ length (records_file run) = expected_count home_document
    /\ Forall (fun r => exists p, screenshot r = Path p) (records_file run).
Proof.
  exact (main_completes_with_reliable_services render_ok download_ok
           home_document "Splash" render_ok_download_ok_reliable
           home_document_distinct_ids).
Defined.

(** ** Clickable Extractor, order and missing screens *)

(** X18.  The extraction works in post-order: the records made for the
    nodes below a node come first, the records made for the node itself
    come last. *)
Theorem extract_clickables_post_order fuel pm nl node l :
  extract_clickables fuel node pm nl [] = Some l ->
  exists below own,
    l = below ++ own
    /\ Forall (fun r => exists n, In n (flat_map nodes (children node))
                                  /\ stems_from n r) below
    /\ Forall (stems_from node) own.
Proof.
  rewrite extract_clickables_unfold.
  destruct (fold_left _ (children node) (Some [])) as [below|] eqn:Hfold;
    [|done].
  intros Hv. apply visit_stems in Hv as (own & -> & Hown).
  exists below, own. repeat split; [|done].
  clear Hown own. revert Hfold.
  assert (Hgen : forall cs acc out,
    Forall (fun r => exists n, In n (flat_map nodes (children node))
                               /\ stems_from n r) acc ->
    incl cs (children node) ->
    fold_left
      (fun acc child =>
         match acc with
         | Some c => extract_clickables fuel child pm nl c
         | None => None
         end) cs (Some acc) = Some out ->
    Forall (fun r => exists n, In n (flat_map nodes (children node))
                               /\ stems_from n r) out).
  { induction cs as [|c cs IH]; intros acc out Hacc Hincl; simpl.
    - by intros [= <-].
    - destruct (extract_clickables fuel c pm nl acc) as [a|] eqn:Ha;
        [|by rewrite fold_extract_none].
      apply IH; [|intros x Hx; apply Hincl; by right].
      apply (extract_clickables_forall _ fuel pm nl c) with (acc := acc);
        [|done..].
      intros n r Hn Hr. exists n. split; [|done].
      apply in_flat_map. exists c. split; [|done]. apply Hincl. by left. }
  intros Hfold.
  apply (Hgen (children node) [] below); [constructor| |exact Hfold].
  by intros x Hx.
Qed.

Lemma extract_clickables_post_order_witness :
  let m := build_node_maps home_document empty_maps None in
  exists below own,
    [make_clickable home_button (mkBox 110 210 20 20) (Some home_screen)
       "2:1" "ON_CLICK"] = below ++ own
    /\ Forall (fun r => exists n,
                 In n (flat_map nodes (children home_screen))
                 /\ stems_from n r) below
    /\ Forall (stems_from home_screen) own.
Proof.
  intros m.
  apply (extract_clickables_post_order 3 (parent_map m) (node_lookup m)
           home_screen).
  vm_compute. reflexivity.
Defined.


